(** * Content pipeline of the portfolio site: a shallow embedding

  The development follows the MDX customisation module (link, image,
  heading and code-block transformers, [slugify], the component table
  and [CustomMDX]), the project list ([Projects]) and the auth route
  ([GET]).

  Strings are JavaScript strings: finite sequences of UTF-16 code
  units, here [list N].  Markup is React's: a node is a string, a
  number, a boolean, [null], [undefined], an element or an array. *)

From Stdlib Require Import ZArith NArith Lia Bool.
From Stdlib Require Import Strings.String Strings.Ascii Numbers.DecimalString.
From Stdlib Require Numbers.DecimalZ.
From Stdlib Require Import Sorting.Sorted Sorting.Permutation.
From stdpp Require Import base option list strings gmap.

#[local] Set Warnings "-register-all".
Local Open Scope N_scope.

(** ** JavaScript strings *)

(** A string value: its UTF-16 code units, in order. *)
Abbreviation jsstring := (list N) (only parsing).

(** The string written by an ASCII literal of the source. *)
Definition js (s : string) : jsstring :=
  map N_of_ascii (list_ascii_of_string s).

(** *** Character classes of the regular expressions *)

(** [\s]: WhiteSpace and LineTerminator of ECMAScript. *)
Definition isWhiteSpace (c : N) : bool :=
  ((0x09 <=? c) && (c <=? 0x0D)) || (c =? 0x20) || (c =? 0xA0)
  || (c =? 0x1680) || ((0x2000 <=? c) && (c <=? 0x200A))
  || (c =? 0x2028) || (c =? 0x2029) || (c =? 0x202F) || (c =? 0x205F)
  || (c =? 0x3000) || (c =? 0xFEFF).

Definition isUpper (c : N) : bool := (0x41 <=? c) && (c <=? 0x5A).
Definition isLower (c : N) : bool := (0x61 <=? c) && (c <=? 0x7A).
Definition isDigit (c : N) : bool := (0x30 <=? c) && (c <=? 0x39).
Definition isUnderscore (c : N) : bool := c =? 0x5F.
Definition isHyphen (c : N) : bool := c =? 0x2D.
Definition isAmpersand (c : N) : bool := c =? 0x26.

(** [\w] without the [u] and [i] flags: [A-Za-z0-9_]. *)
Definition isWordChar (c : N) : bool :=
  isUpper c || isLower c || isDigit c || isUnderscore c.

(** [[^\w\-]]: what the third replacement of [slugify] deletes. *)
Definition isNotWordNorHyphen (c : N) : bool :=
  negb (isWordChar c || isHyphen c).

(** *** Case conversion

    [String.prototype.toLowerCase] on one code unit.  Basic Latin
    capitals move to their small letters.  Two characters outside
    ASCII have a lower case inside ASCII and are mapped as Unicode
    maps them: U+0130 (capital I with dot above) to [i] followed by
    U+0307, and U+212A (Kelvin sign) to [k].  Every other unit is kept
    as it is; where Unicode replaces such a unit, it replaces it by
    units that are again outside ASCII and not white space, and those
    are deleted by the third replacement of [slugify] either way. *)
Definition lowerUnit (c : N) : jsstring :=
  if isUpper c then [c + 0x20]
  else if c =? 0x130 then [0x69; 0x307]
  else if c =? 0x212A then [0x6B]
  else [c].

Definition toLowerCase (s : jsstring) : jsstring := flat_map lowerUnit s.

(** *** Replacement with a global regular expression

    [s.replace(/C{min,}/g, r)] for a character class [C] (given by
    [p]): the scanner keeps the run of class characters read so far in
    [run]; when the run ends it is replaced by [r] if it has at least
    [min] characters and copied otherwise. *)
Definition flushRun (min : nat) (r run : jsstring) : jsstring :=
  match run with
  | [] => []
  | _ :: _ => if (min <=? length run)%nat then r else run
  end.

Fixpoint replaceRunsFrom (p : N -> bool) (min : nat) (r : jsstring)
    (run s : jsstring) : jsstring :=
  match s with
  | [] => flushRun min r run
  | c :: s' =>
      if p c then replaceRunsFrom p min r (run ++ [c]) s'
      else flushRun min r run ++ c :: replaceRunsFrom p min r [] s'
  end.

Definition replaceRuns (p : N -> bool) (min : nat) (r s : jsstring)
    : jsstring :=
  replaceRunsFrom p min r [] s.

(** [s.replace(/c/g, r)] for a single character [c] (given by [p]). *)
Definition replaceEach (p : N -> bool) (r s : jsstring) : jsstring :=
  flat_map (fun c => if p c then r else [c]) s.

(** [s.startsWith(prefix)]. *)
Fixpoint startsWith (prefix s : jsstring) : bool :=
  match prefix, s with
  | [], _ => true
  | _ :: _, [] => false
  | a :: prefix', b :: s' => (a =? b) && startsWith prefix' s'
  end.

(** [s.replace(pattern, replacement)] with a string pattern: the first
    occurrence only.  The replacements used in the source hold no [$]. *)
Fixpoint replaceFirst (pattern replacement s : jsstring) : jsstring :=
  if startsWith pattern s then replacement ++ drop (length pattern) s
  else match s with
       | [] => []
       | c :: s' => c :: replaceFirst pattern replacement s'
       end.

(** [s.charAt(0)] and [s.slice(1)]. *)
Definition charAt0 (s : jsstring) : jsstring := take 1 s.
Definition slice1 (s : jsstring) : jsstring := drop 1 s.

(** A number: not-a-number, an infinity, or a safe integer (at most
    2^53 - 1 in magnitude; both zeros are the integer 0).  Every safe
    integer is a number of the host.  Numbers with a fractional part and
    integers beyond the safe ones are not part of the model. *)
Inductive JsNumber : Type :=
| JsNaN
| JsInfinity (negative : bool)
| JsInteger (z : Z) (safe : (Z.abs z <=? 9007199254740991)%Z = true).

(** [Number::toString]: a safe integer prints in decimal, with a minus
    sign when it is negative. *)
Definition NumberToString (n : JsNumber) : jsstring :=
  match n with
  | JsNaN => js "NaN"
  | JsInfinity false => js "Infinity"
  | JsInfinity true => js "-Infinity"
  | JsInteger z _ => js (NilEmpty.string_of_int (Z.to_int z))
  end.


(** ** React nodes

    What a component receives as [children] and what [slugify] is called
    on.  An element carries its type, its
    string-valued props and [props.children] ([RUndefined] when the
    element has none): a single child is that child itself, several
    children are an array. *)
Inductive ReactNode : Type :=
| RString (s : jsstring)
| RNumber (n : JsNumber)
| RBoolean (b : bool)
| RNull
| RUndefined
| RElement (type : string) (props : gmap string jsstring) (children : ReactNode)
| RArray (items : list ReactNode).

(** ** The slug deriver *)

(** [extractTextFromElement(element)]: [element.props.children] when it
    is a string; the joined texts of its items when it is an array (a
    string item gives itself, an element item its extracted text, any
    other item the empty string); the empty string otherwise.  The
    function is only called on elements. *)
Fixpoint extractTextFromElement (element : ReactNode) : jsstring :=
  match element with
  | RElement _ _ (RString s) => s
  | RElement _ _ (RArray items) =>
      concat (map (fun child =>
                     match child with
                     | RString s => s
                     | RElement _ _ _ => extractTextFromElement child
                     | _ => []
                     end) items)
  | _ => []
  end.

(** [String(v)]: strings are themselves, [null], [undefined] and the
    booleans print their names, a number prints in decimal, an object
    that is not an array prints as [[object Object]] and an array joins
    the strings of its items with commas ([null] and [undefined] items
    giving nothing). *)
Fixpoint ToString (v : ReactNode) : jsstring :=
  match v with
  | RString s => s
  | RNumber n => NumberToString n
  | RBoolean b => if b then js "true" else js "false"
  | RNull => js "null"
  | RUndefined => js "undefined"
  | RElement _ _ _ => js "[object Object]"
  | RArray items =>
      (fix join (l : list ReactNode) : jsstring :=
         match l with
         | [] => []
         | [x] => match x with RNull | RUndefined => [] | _ => ToString x end
         | x :: l' =>
             match x with RNull | RUndefined => [] | _ => ToString x end
               ++ js "," ++ join l'
         end) items
  end.

(** The chain of replacements that ends [slugify]. *)
Definition normalize (text : jsstring) : jsstring :=
  let s1 := toLowerCase text in
  let s2 := replaceRuns isWhiteSpace 1 (js "-") s1 in
  let s3 := replaceEach isAmpersand (js "-and-") s2 in
  let s4 := replaceRuns isNotWordNorHyphen 1 [] s3 in
  replaceRuns isHyphen 2 (js "-") s4.

Definition slugify (str : ReactNode) : jsstring :=
  let text :=
    match str with
    | RString s => s
    | RElement _ _ _ => extractTextFromElement str
    | RArray items =>
        concat (map (fun item =>
                       match item with
                       | RString s => s
                       | RElement _ _ _ => extractTextFromElement item
                       | _ => []
                       end) items)
    | _ => ToString str
    end in
  normalize text.

(** The shapes that reach the last branch of [slugify]. *)
Definition isOtherValue (v : ReactNode) : bool :=
  match v with
  | RString _ | RElement _ _ _ | RArray _ => false
  | _ => true
  end.

(** A normalized slug: small letters, digits, underscores and single
    hyphens. *)
Definition isSlugChar (c : N) : bool :=
  isLower c || isDigit c || isUnderscore c || isHyphen c.

Fixpoint noDoubleHyphen (s : jsstring) : bool :=
  match s with
  | a :: (b :: _) as t => negb (isHyphen a && isHyphen b) && noDoubleHyphen t
  | _ => true
  end.

Definition isSlug (s : jsstring) : bool :=
  forallb isSlugChar s && noDoubleHyphen s.

(** ** Rendered elements

    What a JSX expression of the source builds: the element type, the
    props object and the children.  In a props object a later entry
    replaces an earlier one with the same name, so
    [<a href={href} target="_blank" {...props}>] has the props
    [props ∪ {href; target}] with stdpp's left-biased union. *)
Record CodeInstance : Type := mkCodeInstance {
  code : ReactNode;
  language : jsstring;
  label : jsstring
}.

Inductive PropValue : Type :=
| PString (s : jsstring)
| PBoolean (b : bool)
| PStyle (declarations : list (string * jsstring))
| PCodeInstances (instances : list CodeInstance).

Record Element : Type := mkElement {
  elType : string;
  elProps : gmap string PropValue;
  elChildren : ReactNode
}.

(** The props a transformer is called with: [children] and the others. *)
Record Props : Type := mkProps {
  attrs : gmap string PropValue;
  children : ReactNode
}.

(** What a call of a component comes to: an element, [null], or a
    thrown error. *)
Inductive Result : Type :=
| Rendered (e : Element)
| RenderedNothing
| Thrown.

(** JavaScript truthiness of a prop that may be absent. *)
Definition truthy (v : option PropValue) : bool :=
  match v with
  | None => false
  | Some (PString s) => negb (bool_decide (s = []))
  | Some (PBoolean b) => b
  | Some (PStyle _) => true
  | Some (PCodeInstances _) => true
  end.

(** [name={v}] in a JSX expression, where [v] may be [undefined]: an
    entry that holds [undefined] reads like no entry. *)
Definition withProp (name : string) (v : option PropValue)
    (m : gmap string PropValue) : gmap string PropValue :=
  match v with
  | Some x => <[ name := x ]> m
  | None => m
  end.

(** ** The transformers *)

(** [CustomLink({ href, children, ...props })].  Calling [startsWith] on
    an [href] that is not a string throws. *)
Definition CustomLink (p : Props) : Result :=
  match attrs p !! "href" with
  | Some (PString href) =>
      let props := delete "href" (attrs p) in
      if startsWith (js "/") href then
        Rendered (mkElement "SmartLink"
                    (props ∪ {[ "href" := PString href ]}) (children p))
      else if startsWith (js "#") href then
        Rendered (mkElement "a"
                    (props ∪ {[ "href" := PString href ]}) (children p))
      else
        Rendered (mkElement "a"
                    (props ∪ <[ "href" := PString href ]>
                               (<[ "target" := PString (js "_blank") ]>
                                  {[ "rel" := PString (js "noopener noreferrer") ]}))
                    (children p))
  | _ => Thrown
  end.

(** [createImage({ alt, src, ...props })]: the result and the lines
    written with [console.error].  The remaining props are spread into
    the image, [children] among them. *)
Definition createImage (p : Props) : Result * list jsstring :=
  let alt := attrs p !! "alt" in
  let src := attrs p !! "src" in
  let props := delete "alt" (delete "src" (attrs p)) in
  if negb (truthy src) then
    (RenderedNothing, [js "SmartImage requires a valid 'src' property."])
  else
    (Rendered (mkElement "SmartImage"
                 (props ∪
                    withProp "src" src
                      (withProp "alt" alt
                      (<[ "marginTop" := PString (js "8") ]>
                      (<[ "marginBottom" := PString (js "16") ]>
                      (<[ "enlarge" := PBoolean true ]>
                      (<[ "radius" := PString (js "m") ]>
                      (<[ "aspectRatio" := PString (js "16 / 9") ]>
                      (<[ "border" := PString (js "neutral-alpha-medium") ]>
                      {[ "sizes" := PString (js "(max-width: 960px) 100vw, 960px") ]}))))))))
                 (children p)), []).

(** [createHeading(as)]: the heading carries the slug of its children as
    [id]. *)
Definition createHeading (as_ : string) (p : Props) : Result :=
  let slug := slugify (children p) in
  Rendered (mkElement "HeadingLink"
              (attrs p ∪
                 <[ "style" := PStyle [("marginTop", js "var(--static-space-24)");
                                        ("marginBottom", js "var(--static-space-12)")] ]>
                   (<[ "as" := PString (js as_) ]>
                      {[ "id" := PString slug ]}))
              (children p)).

Definition createParagraph (p : Props) : Result :=
  Rendered (mkElement "Text"
              (<[ "style" := PStyle [("lineHeight", js "175%")] ]>
              (<[ "variant" := PString (js "body-default-m") ]>
              (<[ "onBackground" := PString (js "neutral-medium") ]>
              (<[ "marginTop" := PString (js "8") ]>
              {[ "marginBottom" := PString (js "12") ]}))))
              (children p)).

Definition createInlineCode (p : Props) : Result :=
  Rendered (mkElement "InlineCode" ∅ (children p)).

Section CodeBlock.

(** [String.prototype.toUpperCase] on one code unit outside Basic Latin:
    the host's Unicode table, which the repository does not contain. *)
Variable upperOutsideAscii : N -> jsstring.

Definition upperUnit (c : N) : jsstring :=
  if isLower c then [c - 0x20]
  else if c <? 0x80 then [c]
  else upperOutsideAscii c.

Definition toUpperCase (s : jsstring) : jsstring := flat_map upperUnit s.

(** [createCodeBlock(props)]: [props.children?.props?.className] is the
    class of the element that is the only child of the [pre] node, when
    there is one. *)
Definition createCodeBlock (props : Props) : Result :=
  let fallback := Rendered (mkElement "pre" (attrs props) (children props)) in
  match children props with
  | RElement _ childProps childChildren =>
      match childProps !! "className" with
      | Some className =>
          if bool_decide (className = []) then fallback
          else
            let language := replaceFirst (js "language-") [] className in
            let label := toUpperCase (charAt0 language) ++ slice1 language in
            Rendered (mkElement "CodeBlock"
                        (<[ "marginTop" := PString (js "8") ]>
                        (<[ "marginBottom" := PString (js "16") ]>
                        (<[ "codeInstances" :=
                              PCodeInstances [mkCodeInstance childChildren language label] ]>
                        {[ "copyButton" := PBoolean true ]})))
                        RUndefined)
      | None => fallback
      end
  | _ => fallback
  end.

End CodeBlock.

(** ** The component table *)

(** A component: from its props to what it renders and what it logs. *)
Abbreviation Component := (Props -> Result * list jsstring) (only parsing).

Definition silent (f : Props -> Result) : Component := fun p => (f p, []).

(** A component of the component library ([Heading], [Text], ...), and
    one that [dynamic] loads from it when it is first used.  Their code
    is outside the module: a call is left as the element that names the
    component. *)
Definition libraryComponent (name : string) : Component :=
  fun p => (Rendered (mkElement name (attrs p) (children p)), []).

Definition dynamic (name : string) : Component := libraryComponent name.

(** The props of [CustomMDX]: the content and the caller's own table,
    which may be absent.  Every entry of the caller's table holds a
    component; a table with an entry that holds [undefined] is not part
    of the model. *)
Record CustomMDXProps : Type := mkCustomMDXProps {
  source : jsstring;
  overrides : option (gmap string Component)
}.

(** The props [CustomMDX] hands to [MDXRemote]. *)
Record MDXRemoteProps : Type := mkMDXRemoteProps {
  mdxSource : jsstring;
  mdxComponents : gmap string Component
}.

Section Table.

Variable upperOutsideAscii : N -> jsstring.

Definition components : gmap string Component :=
  list_to_map
    [ ("p", silent createParagraph);
      ("h1", silent (createHeading "h1"));
      ("h2", silent (createHeading "h2"));
      ("h3", silent (createHeading "h3"));
      ("h4", silent (createHeading "h4"));
      ("h5", silent (createHeading "h5"));
      ("h6", silent (createHeading "h6"));
      ("img", createImage);
      ("a", silent CustomLink);
      ("code", silent createInlineCode);
      ("pre", silent (createCodeBlock upperOutsideAscii));
      ("Heading", libraryComponent "Heading");
      ("Text", libraryComponent "Text");
      ("CodeBlock", libraryComponent "CodeBlock");
      ("InlineCode", libraryComponent "InlineCode");
      ("Accordion", dynamic "Accordion");
      ("AccordionGroup", dynamic "AccordionGroup");
      ("Table", dynamic "Table");
      ("Feedback", dynamic "Feedback");
      ("Button", dynamic "Button");
      ("Card", dynamic "Card");
      ("Grid", dynamic "Grid");
      ("Row", dynamic "Row");
      ("Column", dynamic "Column");
      ("Icon", dynamic "Icon");
      ("SmartImage", dynamic "SmartImage");
      ("SmartLink", dynamic "SmartLink") ].

(** [{ ...components, ...(props.components || {}) }]. *)
Definition CustomMDX (props : CustomMDXProps) : MDXRemoteProps :=
  mkMDXRemoteProps (source props) (default ∅ (overrides props) ∪ components).

End Table.

(** ** The host's traversal

    [MDXRemote] and React are outside the repository.  What the
    properties of the module rely on: a node of kind [k] is rendered by
    the entry [k] of the table, and left as a plain element when the
    table has none; the children of a node are rendered one after the
    other, a [null] result leaves no output, and a thrown error ends the
    rendering. *)
Record MdxNode : Type := mkMdxNode {
  kind : string;
  nodeProps : Props
}.

Definition renderNode (table : gmap string Component) (n : MdxNode)
    : Result * list jsstring :=
  match table !! kind n with
  | Some component => component (nodeProps n)
  | None => libraryComponent (kind n) (nodeProps n)
  end.

Fixpoint renderSiblings (table : gmap string Component) (nodes : list MdxNode)
    : option (list Element) * list jsstring :=
  match nodes with
  | [] => (Some [], [])
  | n :: rest =>
      match renderNode table n with
      | (Thrown, log) => (None, log)
      | (RenderedNothing, log) =>
          let (out, log') := renderSiblings table rest in (out, log ++ log')
      | (Rendered e, log) =>
          let (out, log') := renderSiblings table rest in
          (cons e <$> out, log ++ log')
      end
  end.

(** ** The project list *)

Record Metadata : Type := mkMetadata {
  title : jsstring;
  publishedAt : jsstring;
  summary : jsstring
}.

Record Post : Type := mkPost {
  slug : jsstring;
  metadata : Metadata;
  content : jsstring
}.

(** [Array.prototype.sort(comparefn)].  A comparator result that is not
    a number ([None]) counts as zero.  For a consistent comparator the
    language fixes the result: sorted by the comparator, items that
    compare equal in their former order.  This insertion sort computes
    that list. *)
Section Sort.

Context {A : Type}.
Variable comparefn : A -> A -> option Z.

Definition SortCompare (x y : A) : Z := default 0%Z (comparefn x y).

Fixpoint insertSorted (x : A) (l : list A) : list A :=
  match l with
  | [] => [x]
  | y :: l' =>
      if (0 <? SortCompare x y)%Z then y :: insertSorted x l' else x :: l
  end.

Definition sort (l : list A) : list A := foldr insertSorted [] l.

End Sort.

Section Projects.

(** [new Date(s).getTime()]: the time value in milliseconds, [None] when
    the host cannot read [s] as a date (the time value is then NaN).
    How the host reads a date string is outside the repository. *)
Variable getTime : jsstring -> option Z.

(** [new Date(post.metadata.publishedAt).getTime()]. *)
Definition publishedTime (post : Post) : option Z :=
  getTime (publishedAt (metadata post)).

(** The comparator of [Projects]; a difference with NaN is NaN.  Only the
    sign of the difference is used by [sort]. *)
Definition compareProjects (a b : Post) : option Z :=
  match publishedTime b, publishedTime a with
  | Some tb, Some ta => Some (tb - ta)%Z
  | _, _ => None
  end.

Definition sortedProjects (allProjects : list Post) : list Post :=
  sort compareProjects allProjects.

(** [a] comes strictly later than [b]. *)
Definition laterThan (a b : Post) : Prop :=
  match publishedTime a, publishedTime b with
  | Some ta, Some tb => (tb < ta)%Z
  | _, _ => False
  end.

End Projects.

(** ** The auth route *)

(** A request: its headers, by name in small letters
    ([request.headers.get] does not tell cases apart). *)
Record NextRequest : Type := mkNextRequest {
  headers : gmap string jsstring
}.

(** [NextResponse.json({ authenticated }, { status })]. *)
Record NextResponse : Type := mkNextResponse {
  authenticated : bool;
  status : Z
}.

Section Auth.

(** [cookie.parse] of the [cookie] package: from the header text to the
    object of cookie names and values. *)
Variable cookie_parse : jsstring -> gmap jsstring jsstring.

Definition GET (request : NextRequest) : NextResponse :=
  let cookieHeader := default [] (headers request !! "cookie") in
  let cookies := cookie_parse cookieHeader in
  if bool_decide (cookies !! js "authToken" = Some (js "authenticated")) then
    mkNextResponse true 200
  else
    mkNextResponse false 401.

End Auth.

(** ** Auxiliary definitions of the proofs *)

(** What the last replacement of [normalize] computes, read from left to
    right: a hyphen that follows a hyphen is dropped. *)
Fixpoint collapseHyphens (afterHyphen : bool) (s : jsstring) : jsstring :=
  match s with
  | [] => []
  | c :: s' =>
      if isHyphen c then
        if afterHyphen then collapseHyphens true s'
        else c :: collapseHyphens true s'
      else c :: collapseHyphens false s'
  end.

Definition headNotHyphen (s : jsstring) : bool :=
  match s with
  | [] => true
  | c :: _ => negb (isHyphen c)
  end.

(** [props.children?.props?.className] and [props.children.props.children]
    of a [pre] node. *)
Definition childClassName (props : Props) : option jsstring :=
  match children props with
  | RElement _ childProps _ => childProps !! "className"
  | _ => None
  end.

Definition childChildren (props : Props) : ReactNode :=
  match children props with
  | RElement _ _ c => c
  | _ => RUndefined
  end.

(** *** Instances for the examples

    The dates of three project files of the repository with their time
    values, a cookie reader that knows two headers, and the three
    projects. *)
Definition exampleTime (s : list N) : option Z :=
  if bool_decide (s = js "2025-01-01") then Some 1735689600000%Z
  else if bool_decide (s = js "2024-02-08") then Some 1707350400000%Z
  else if bool_decide (s = js "2025-03-05") then Some 1741132800000%Z
  else None.

Definition exampleCookies (header : list N) : gmap (list N) (list N) :=
  if bool_decide (header = js "authToken=authenticated") then
    {[ js "authToken" := js "authenticated" ]}
  else if bool_decide (header = js "authToken=guest") then
    {[ js "authToken" := js "guest" ]}
  else ∅.

Definition examplePost (name date : string) : Post :=
  mkPost (js name) (mkMetadata (js name) (js date) []) [].

Definition exampleProjects : list Post :=
  [ examplePost "sorting-visualizer" "2025-01-01";
    examplePost "omninum" "2024-02-08";
    examplePost "piz" "2025-03-05" ].

(** ** Further code of the modules

    *** Text of a node, for the properties of [extractTextFromElement]

    The string leaves of a node in document order, and the shapes on
    which [extractTextFromElement] reaches all of them: an element whose
    children is a string, or an array whose items are strings and such
    elements. *)
Fixpoint textContent (v : ReactNode) : list N :=
  match v with
  | RString s => s
  | RElement _ _ c => textContent c
  | RArray items => concat (map textContent items)
  | _ => []
  end.

Fixpoint arrayShaped (v : ReactNode) : bool :=
  match v with
  | RElement _ _ (RString _) => true
  | RElement _ _ (RArray items) =>
      forallb (fun item =>
                 match item with
                 | RString _ => true
                 | RElement _ _ _ => arrayShaped item
                 | _ => false
                 end) items
  | _ => false
  end.

Definition itemShaped (item : ReactNode) : bool :=
  match item with
  | RString _ => true
  | RElement _ _ _ => arrayShaped item
  | _ => false
  end.

Definition contentShaped (v : ReactNode) : bool :=
  match v with
  | RString _ => true
  | RElement _ _ _ => arrayShaped v
  | RArray items => forallb itemShaped items
  | _ => false
  end.

(** *** [slugify] on any value

    A value [slugify] may be called with: a React node, or another
    object.  Of such an object only [String(object)] is used, and the
    object decides what that is: the string its conversion returns, or
    nothing when the conversion throws, as it does for an object without
    [toString] and [valueOf] such as [Object.create(null)]. *)
Inductive JsValue : Type :=
| NodeValue (v : ReactNode)
| OtherObject (stringForm : option (list N)).

(** [slugify] on any value: the slug, or [None] when the call throws. *)
Definition slugifyValue (x : JsValue) : option (list N) :=
  match x with
  | NodeValue v => Some (slugify v)
  | OtherObject (Some text) => Some (normalize text)
  | OtherObject None => None
  end.

(** The values that reach the last branch of [slugify]. *)
Definition isOtherInput (x : JsValue) : bool :=
  match x with
  | NodeValue v => isOtherValue v
  | OtherObject _ => true
  end.

(** The small Basic Latin letters of a string written as capitals. *)
Definition asciiUpperCase (s : list N) : list N :=
  map (fun c => if isLower c then c - 0x20 else c) s.

(** The items of an array that [slugify] reads: strings and elements. *)
Definition isTextItem (item : ReactNode) : bool :=
  match item with
  | RString _ | RElement _ _ _ => true
  | _ => false
  end.

(** A code unit that no step of [normalize] keeps or replaces. *)
Definition isDropped (c : N) : bool :=
  isNotWordNorHyphen c && negb (isWhiteSpace c) && negb (isAmpersand c)
  && negb (c =? 0x130) && negb (c =? 0x212A).

(** The props [createImage] sets before the caller's. *)
Definition imageDefaults : gmap string PropValue :=
  <[ "marginTop" := PString (js "8") ]>
  (<[ "marginBottom" := PString (js "16") ]>
  (<[ "enlarge" := PBoolean true ]>
  (<[ "radius" := PString (js "m") ]>
  (<[ "aspectRatio" := PString (js "16 / 9") ]>
  (<[ "border" := PString (js "neutral-alpha-medium") ]>
  {[ "sizes" := PString (js "(max-width: 960px) 100vw, 960px") ]}))))).

(** *** The displayed projects

    [Array.prototype.slice(start, end)] on integral arguments: a
    negative index counts from the end, and both are clamped to the
    array. *)
Definition sliceArray {A : Type} (first last : Z) (l : list A) : list A :=
  let len := Z.of_nat (length l) in
  let k := if (first <? 0)%Z then Z.max (len + first) 0 else Z.min first len in
  let final := if (last <? 0)%Z then Z.max (len + last) 0 else Z.min last len in
  take (Z.to_nat (final - k)) (drop (Z.to_nat k) l).

Section Display.

Variable getTime : list N -> option Z.

(** [displayedProjects] of [Projects]: [range] is absent, or a first
    number with an optional second one. *)
Definition displayedProjects (range : option (Z * option Z))
    (allProjects : list Post) : list Post :=
  let sorted := sortedProjects getTime allProjects in
  match range with
  | Some (r0, r1) =>
      sliceArray (r0 - 1) (default (Z.of_nat (length sorted)) r1) sorted
  | None => sorted
  end.

(** [a] is not earlier than [b]. *)
Definition notEarlierThan (a b : Post) : Prop :=
  match publishedTime getTime a, publishedTime getTime b with
  | Some ta, Some tb => (tb <= ta)%Z
  | _, _ => False
  end.

End Display.

(** *** The glitch effect

    The state of [GlitchFx] is [isGlitching]; the model adds the number
    of [setTimeout] callbacks that have not run yet.  The props are
    those after the defaults, with what matters of the remaining props:
    these are spread after [onMouseEnter] and [onMouseLeave], so an
    entry of that name among them stands in place of the component's
    own handler.  The handlers are run by the host: the
    mouse handlers on the element, [triggerGlitch] by the interval that
    the second effect installs when the trigger is [custom], and the
    timeout callback once for each [setTimeout]. *)
Inductive Trigger : Type := instant | hover | custom.

Record GlitchFxProps : Type := mkGlitchFxProps {
  trigger : Trigger;
  continuous : bool;
  restOnMouseEnter : bool;
  restOnMouseLeave : bool
}.

Record GlitchState : Type := mkGlitchState {
  isGlitching : bool;
  pendingTimeouts : nat
}.

Inductive GlitchEvent : Type :=
| MouseEnter
| MouseLeave
| IntervalFires
| TimeoutFires.

Definition isInstant (t : Trigger) : bool :=
  match t with instant => true | _ => false end.

(** [useState(continuous || trigger === "instant")]. *)
Definition initialGlitch (props : GlitchFxProps) : GlitchState :=
  mkGlitchState (continuous props || isInstant (trigger props)) 0.

(** The first effect, run after mounting. *)
Definition mountEffect (props : GlitchFxProps) (st : GlitchState) : GlitchState :=
  if continuous props || isInstant (trigger props) then
    mkGlitchState true (pendingTimeouts st)
  else st.

Definition handleGlitch (props : GlitchFxProps) (st : GlitchState)
    (ev : GlitchEvent) : GlitchState :=
  match ev with
  | MouseEnter =>
      if restOnMouseEnter props then st
      else match trigger props with
           | hover => mkGlitchState true (pendingTimeouts st)
           | _ => st
           end
  | MouseLeave =>
      if restOnMouseLeave props then st
      else match trigger props with
           | hover => mkGlitchState false (pendingTimeouts st)
           | _ => st
           end
  | IntervalFires =>
      match trigger props with
      | custom => mkGlitchState true (S (pendingTimeouts st))
      | _ => st
      end
  | TimeoutFires =>
      match pendingTimeouts st with
      | O => st
      | S n => mkGlitchState false n
      end
  end.

Definition runGlitch (props : GlitchFxProps) (events : list GlitchEvent)
    : GlitchState :=
  fold_left (handleGlitch props) events (mountEffect props (initialGlitch props)).

(** * Properties *)

(** ** Character classes *)

Ltac classes :=
  unfold isNotWordNorHyphen, isSlugChar, isWordChar, isWhiteSpace, isUpper,
    isLower, isDigit, isUnderscore, isHyphen, isAmpersand in *;
  rewrite ?negb_true_iff, ?negb_false_iff in *;
  rewrite ?orb_true_iff, ?orb_false_iff, ?andb_true_iff, ?andb_false_iff,
    ?N.eqb_eq, ?N.eqb_neq, ?N.leb_le, ?N.leb_gt in *;
  try lia.

Lemma slugChar_not_upper c : isSlugChar c = true -> isUpper c = false.
Proof. intros H. classes. Qed.

Lemma slugChar_not_space c : isSlugChar c = true -> isWhiteSpace c = false.
Proof. intros H. classes. Qed.

Lemma slugChar_not_ampersand c : isSlugChar c = true -> isAmpersand c = false.
Proof. intros H. classes. Qed.

Lemma slugChar_kept c : isSlugChar c = true -> isNotWordNorHyphen c = false.
Proof. intros H. classes. Qed.

Lemma kept_lower_is_slugChar c :
  isNotWordNorHyphen c = false -> isUpper c = false -> isSlugChar c = true.
Proof. intros H1 H2. classes. Qed.

Lemma space_not_upper c : isWhiteSpace c = true -> isUpper c = false.
Proof. intros H. classes. Qed.

(** ** Case conversion *)

Lemma lowerUnit_not_upper c : Forall (fun d => isUpper d = false) (lowerUnit c).
Proof.
  unfold lowerUnit.
  destruct (isUpper c) eqn:Hup.
  - constructor; [classes | constructor].
  - destruct (c =? 0x130) eqn:H1; [repeat constructor |].
    destruct (c =? 0x212A) eqn:H2; [repeat constructor |].
    constructor; [assumption | constructor].
Qed.

Lemma toLowerCase_not_upper s :
  Forall (fun d => isUpper d = false) (toLowerCase s).
Proof.
  unfold toLowerCase. induction s as [|c s IH]; simpl.
  - constructor.
  - apply Forall_app. split; [apply lowerUnit_not_upper | exact IH].
Qed.

Lemma lowerUnit_fixed c :
  isUpper c = false -> c <> 0x130 -> c <> 0x212A -> lowerUnit c = [c].
Proof.
  intros Hup H1 H2. unfold lowerUnit. rewrite Hup.
  apply N.eqb_neq in H1, H2. now rewrite H1, H2.
Qed.

Lemma toLowerCase_fixed (P : N -> bool) s :
  (forall c, P c = true -> lowerUnit c = [c]) ->
  Forall (fun c => P c = true) s -> toLowerCase s = s.
Proof.
  intros HP. unfold toLowerCase. induction 1 as [|c s Hc _ IH]; simpl.
  - reflexivity.
  - rewrite (HP c Hc), IH. reflexivity.
Qed.

Lemma lowerUnit_slugChar c : isSlugChar c = true -> lowerUnit c = [c].
Proof. intros H. apply lowerUnit_fixed; classes. Qed.

Lemma lowerUnit_space c : isWhiteSpace c = true -> lowerUnit c = [c].
Proof. intros H. apply lowerUnit_fixed; classes. Qed.

(** ** Replacement of runs *)

Section Runs.

Variable p : N -> bool.
Variable min : nat.
Variable r : jsstring.

Lemma flushRun_Forall (Q : N -> Prop) run :
  Forall Q r -> Forall Q run -> Forall Q (flushRun min r run).
Proof.
  intros Hr Hrun. unfold flushRun. destruct run; [constructor |].
  destruct (min <=? _)%nat; assumption.
Qed.

(** A property of all characters of the input and of the replacement
    holds of all characters of the output. *)
Lemma replaceRunsFrom_Forall (Q : N -> Prop) s :
  Forall Q r -> Forall Q s ->
  forall run, Forall Q run -> Forall Q (replaceRunsFrom p min r run s).
Proof.
  intros Hr Hs. induction Hs as [|c s Hc Hs IH]; intros run Hrun; simpl.
  - now apply flushRun_Forall.
  - destruct (p c).
    + apply IH. apply Forall_app. split; [assumption | now constructor].
    + apply Forall_app. split; [now apply flushRun_Forall |].
      constructor; [assumption | apply IH; constructor].
Qed.

(** Without a character of the class nothing is replaced. *)
Lemma replaceRunsFrom_none s :
  Forall (fun c => p c = false) s ->
  forall run, replaceRunsFrom p min r run s = flushRun min r run ++ s.
Proof.
  induction 1 as [|c s Hc _ IH]; intros run; simpl.
  - now rewrite app_nil_r.
  - rewrite Hc, IH. reflexivity.
Qed.

(** A string of class characters is one run. *)
Lemma replaceRunsFrom_all s :
  Forall (fun c => p c = true) s ->
  forall run, replaceRunsFrom p min r run s = flushRun min r (run ++ s).
Proof.
  induction 1 as [|c s Hc _ IH]; intros run; simpl.
  - now rewrite app_nil_r.
  - rewrite Hc, IH, <- app_assoc. reflexivity.
Qed.

End Runs.

Lemma replaceRuns_fixed p min r s :
  Forall (fun c => p c = false) s -> replaceRuns p min r s = s.
Proof. intros H. unfold replaceRuns. now rewrite replaceRunsFrom_none. Qed.

(** With the empty replacement and runs of any length, the characters of
    the class are deleted. *)
Lemma replaceRunsFrom_deletes p s :
  forall run, Forall (fun c => p c = false) (replaceRunsFrom p 1 [] run s).
Proof.
  induction s as [|c s IH]; intros run; simpl.
  - destruct run; simpl; [constructor |].
    destruct (length run); constructor.
  - destruct (p c) eqn:Hc; [apply IH |].
    apply Forall_app. split.
    + destruct run; simpl; constructor.
    + constructor; [assumption | apply IH].
Qed.

Lemma replaceEach_Forall (Q : N -> Prop) p r s :
  Forall Q r -> Forall Q s -> Forall Q (replaceEach p r s).
Proof.
  intros Hr. unfold replaceEach. induction 1 as [|c s Hc _ IH]; simpl.
  - constructor.
  - apply Forall_app. split; [| exact IH].
    destruct (p c); [assumption | now constructor].
Qed.

Lemma replaceEach_fixed p r s :
  Forall (fun c => p c = false) s -> replaceEach p r s = s.
Proof.
  unfold replaceEach. induction 1 as [|c s Hc _ IH]; simpl.
  - reflexivity.
  - now rewrite Hc, IH.
Qed.

(** ** The last replacement: runs of hyphens *)

Lemma hyphen_is c : isHyphen c = true -> c = 0x2D.
Proof. intros H. classes. Qed.

Lemma flushRun_hyphens run :
  Forall (fun c => isHyphen c = true) run -> run <> [] ->
  flushRun 2 (js "-") run = [0x2D].
Proof.
  intros Hrun Hne. destruct run as [|a [|b run]]; [congruence | |reflexivity].
  simpl. inversion Hrun as [|? ? Ha _]; subst. now rewrite (hyphen_is a Ha).
Qed.

Lemma replaceRunsFrom_hyphens s :
  forall run, Forall (fun c => isHyphen c = true) run ->
  replaceRunsFrom isHyphen 2 (js "-") run s =
  match run with
  | [] => collapseHyphens false s
  | _ :: _ => 0x2D :: collapseHyphens true s
  end.
Proof.
  induction s as [|c s IH]; intros run Hrun.
  - simpl replaceRunsFrom. destruct run as [|a run]; [reflexivity |].
    now apply flushRun_hyphens.
  - simpl replaceRunsFrom. simpl collapseHyphens.
    destruct (isHyphen c) eqn:Hc.
    + rewrite IH by (apply Forall_app; split; [assumption | now repeat constructor]).
      destruct run as [|a run]; simpl; [| reflexivity].
      now rewrite (hyphen_is c Hc).
    + rewrite (IH []) by constructor.
      destruct run as [|a run]; [reflexivity |].
      now rewrite flushRun_hyphens.
Qed.

Lemma replaceRuns_hyphens s :
  replaceRuns isHyphen 2 (js "-") s = collapseHyphens false s.
Proof. unfold replaceRuns. now rewrite replaceRunsFrom_hyphens. Qed.

Lemma collapseHyphens_head s : headNotHyphen (collapseHyphens true s) = true.
Proof.
  induction s as [|c s IH]; simpl; [reflexivity |].
  destruct (isHyphen c) eqn:Hc; [exact IH |]. simpl. now rewrite Hc.
Qed.

Lemma noDoubleHyphen_cons c s :
  noDoubleHyphen s = true ->
  isHyphen c = false \/ headNotHyphen s = true ->
  noDoubleHyphen (c :: s) = true.
Proof.
  intros Hs Hc. destruct s as [|d s]; [reflexivity |].
  change (negb (isHyphen c && isHyphen d) && noDoubleHyphen (d :: s) = true).
  rewrite Hs, andb_true_r. simpl in Hc.
  destruct Hc as [Hc | Hd]; [now rewrite Hc |].
  apply negb_true_iff in Hd. rewrite Hd. now rewrite andb_false_r.
Qed.

Lemma collapseHyphens_noDouble s :
  forall b, noDoubleHyphen (collapseHyphens b s) = true.
Proof.
  induction s as [|c s IH]; intros b; simpl; [reflexivity |].
  destruct (isHyphen c) eqn:Hc.
  - destruct b; [apply IH |].
    apply noDoubleHyphen_cons; [apply IH | right; apply collapseHyphens_head].
  - apply noDoubleHyphen_cons; [apply IH | now left].
Qed.

Lemma noDoubleHyphen_inv c s :
  noDoubleHyphen (c :: s) = true ->
  noDoubleHyphen s = true /\ (isHyphen c = true -> headNotHyphen s = true).
Proof.
  destruct s as [|d s]; [now split |].
  change (noDoubleHyphen (c :: d :: s)) with
    (negb (isHyphen c && isHyphen d) && noDoubleHyphen (d :: s)).
  rewrite andb_true_iff, negb_true_iff, andb_false_iff.
  intros [Hcd Hs]. split; [exact Hs |].
  intros Hc. simpl. destruct Hcd as [H | H]; [congruence | now rewrite H].
Qed.

Lemma collapseHyphens_fixed s :
  noDoubleHyphen s = true ->
  forall b, (b = true -> headNotHyphen s = true) -> collapseHyphens b s = s.
Proof.
  induction s as [|c s IH]; intros Hs b Hb; [reflexivity |].
  apply noDoubleHyphen_inv in Hs. destruct Hs as [Hs Hhead].
  simpl. destruct (isHyphen c) eqn:Hc.
  - destruct b.
    + specialize (Hb eq_refl). simpl in Hb. rewrite Hc in Hb. discriminate.
    + f_equal. apply IH; [exact Hs | intros _; now apply Hhead].
  - f_equal. apply IH; [exact Hs | discriminate].
Qed.

(** ** [normalize] *)

Lemma forallb_Forall_true (f : N -> bool) s :
  forallb f s = true <-> Forall (fun c => f c = true) s.
Proof.
  induction s as [|c s IH]; simpl.
  - split; [constructor | reflexivity].
  - rewrite andb_true_iff, IH. split.
    + intros [H1 H2]. now constructor.
    + inversion 1; subst. now split.
Qed.

Lemma js_hyphen_not_upper : Forall (fun d => isUpper d = false) (js "-").
Proof. repeat constructor. Qed.

Lemma js_and_not_upper : Forall (fun d => isUpper d = false) (js "-and-").
Proof. repeat constructor. Qed.

(** Whatever the text, the result is made of small letters, digits,
    underscores and hyphens, and no hyphen follows a hyphen. *)
Lemma normalize_isSlug text : isSlug (normalize text) = true.
Proof.
  unfold isSlug, normalize.
  rewrite replaceRuns_hyphens at 2. rewrite collapseHyphens_noDouble, andb_true_r.
  apply forallb_Forall_true.
  apply replaceRunsFrom_Forall; [repeat constructor | | constructor].
  set (s3 := replaceEach _ _ _).
  assert (Hup : Forall (fun d => isUpper d = false) s3).
  { apply replaceEach_Forall; [exact js_and_not_upper |].
    apply replaceRunsFrom_Forall;
      [exact js_hyphen_not_upper | apply toLowerCase_not_upper | constructor]. }
  assert (Hkept : Forall (fun c => isNotWordNorHyphen c = false)
                    (replaceRuns isNotWordNorHyphen 1 [] s3))
    by apply replaceRunsFrom_deletes.
  assert (Hup' : Forall (fun d => isUpper d = false)
                   (replaceRuns isNotWordNorHyphen 1 [] s3))
    by (apply replaceRunsFrom_Forall; [constructor | exact Hup | constructor]).
  clear Hup. induction Hkept as [|c s Hc _ IH]; [constructor |].
  inversion Hup'; subst. constructor; [| now apply IH].
  now apply kept_lower_is_slugChar.
Qed.

(** A normalized slug is left as it is. *)
Lemma normalize_fixed s : isSlug s = true -> normalize s = s.
Proof.
  unfold isSlug. rewrite andb_true_iff, forallb_Forall_true.
  intros [Hchars Hhyph]. unfold normalize.
  rewrite (toLowerCase_fixed isSlugChar) by (auto using lowerUnit_slugChar).
  rewrite (replaceRuns_fixed isWhiteSpace)
    by (eapply Forall_impl; [exact Hchars | apply slugChar_not_space]).
  rewrite replaceEach_fixed
    by (eapply Forall_impl; [exact Hchars | apply slugChar_not_ampersand]).
  rewrite (replaceRuns_fixed isNotWordNorHyphen)
    by (eapply Forall_impl; [exact Hchars | apply slugChar_kept]).
  rewrite replaceRuns_hyphens.
  apply collapseHyphens_fixed; [exact Hhyph | discriminate].
Qed.

(** ** [slugify] *)

Example slugify_hello_world :
  slugify (RString (js "Hello World!")) = js "hello-world".
Proof. reflexivity. Qed.

Example slugify_a_and_b : slugify (RString (js "A & B")) = js "a-and-b".
Proof. reflexivity. Qed.

Example slugify_kelvin_sign : slugify (RString [0x212A; 0xE9; 0xA0; 0x41]) = js "k-a".
Proof. reflexivity. Qed.

(** The result of [slugify] is a normalized slug, whatever the node. *)
Lemma slugify_isSlug v : isSlug (slugify v) = true.
Proof. unfold slugify. apply normalize_isSlug. Qed.

(** A slug is the slug of itself, whatever node it was derived from. *)
Lemma slugify_fixed_point v : slugify (RString (slugify v)) = slugify v.
Proof.
  change (slugify (RString (slugify v))) with (normalize (slugify v)).
  apply normalize_fixed, slugify_isSlug.
Qed.

(** Induction on nodes, with the items of an array. *)
Lemma ReactNode_nested_ind (P : ReactNode -> Prop) :
  (forall s, P (RString s)) ->
  (forall z, P (RNumber z)) ->
  (forall b, P (RBoolean b)) ->
  P RNull ->
  P RUndefined ->
  (forall t p c, P c -> P (RElement t p c)) ->
  (forall items, Forall P items -> P (RArray items)) ->
  forall v, P v.
Proof.
  intros Hs Hn Hb Hnull Hundef Hel Harr.
  fix IH 1. intros [s | z | b | | | t p c | items].
  - apply Hs.
  - apply Hn.
  - apply Hb.
  - apply Hnull.
  - apply Hundef.
  - apply Hel, IH.
  - apply Harr.
    exact ((fix items_ok (l : list ReactNode) : Forall P l :=
              match l with
              | [] => List.Forall_nil P
              | x :: l' => @List.Forall_cons _ P x l' (IH x) (items_ok l')
              end) items).
Qed.

Lemma extractTextFromElement_textContent (v : ReactNode) :
  arrayShaped v = true -> extractTextFromElement v = textContent v.
Proof.
  cut ((arrayShaped v = true -> extractTextFromElement v = textContent v)
       /\ match v with
          | RArray items =>
              Forall (fun item => arrayShaped item = true ->
                                  extractTextFromElement item = textContent item)
                items
          | _ => True
          end); [tauto |].
  induction v as [s | z | b | | | t p c IHc | items IHitems]
    using ReactNode_nested_ind; try (split; [discriminate | exact I]).
  - split; [| exact I].
    destruct c as [s | | | | | |items]; try discriminate; [reflexivity |].
    destruct IHc as [_ IHitems]. simpl. intros Hshape. f_equal.
    induction IHitems as [|item items Hitem _ IH]; [reflexivity |].
    simpl in Hshape. apply andb_true_iff in Hshape. destruct Hshape as [H1 H2].
    simpl. rewrite (IH H2). f_equal.
    destruct item; try discriminate; [reflexivity | now apply Hitem].
  - split; [discriminate |].
    eapply Forall_impl; [exact IHitems |]. intros item [Hitem _]. exact Hitem.
Qed.

Lemma itemShaped_text (item : ReactNode) :
  itemShaped item = true ->
  match item with
  | RString s => s
  | RElement _ _ _ => extractTextFromElement item
  | _ => []
  end = textContent item.
Proof.
  destruct item; try discriminate; [reflexivity |].
  apply extractTextFromElement_textContent.
Qed.

(** Every character that [extractTextFromElement] returns is a character
    of a string leaf. *)
Lemma extractTextFromElement_units (P : N -> Prop) (v : ReactNode) :
  Forall P (textContent v) -> Forall P (extractTextFromElement v).
Proof.
  cut ((Forall P (textContent v) -> Forall P (extractTextFromElement v))
       /\ match v with
          | RArray items =>
              Forall (fun item => Forall P (textContent item) ->
                                  Forall P (extractTextFromElement item)) items
          | _ => True
          end); [tauto |].
  induction v as [s | n | b | | | t p c IHc | items IHitems]
    using ReactNode_nested_ind; try (split; [constructor | exact I]).
  - split; [| exact I].
    destruct c as [s | | | | | |items]; try (intros _; constructor);
      [intros H; exact H |].
    destruct IHc as [_ IHitems]. simpl.
    induction IHitems as [|item items Hitem _ IH]; [constructor |].
    simpl. rewrite !Forall_app. intros [H1 H2]. split; [| now apply IH].
    destruct item; try constructor; [exact H1 | now apply Hitem].
  - split; [constructor |].
    eapply Forall_impl; [exact IHitems |]. intros item [Hitem _]. exact Hitem.
Qed.

(** The text [slugify] normalizes for a string, an element or an array:
    its characters are characters of string leaves, and on the shapes
    that are read in full it is the text of all string leaves. *)
Lemma slugify_reads (v : ReactNode) :
  isOtherValue v = false ->
  exists text,
    slugify v = normalize text
    /\ (forall P : N -> Prop, Forall P (textContent v) -> Forall P text)
    /\ (contentShaped v = true -> text = textContent v).
Proof.
  intros Hv. destruct v as [s | | | | | t p c | items]; try discriminate Hv.
  - exists s. repeat split; auto.
  - exists (extractTextFromElement (RElement t p c)).
    split; [reflexivity |]. split.
    + intros P. apply extractTextFromElement_units.
    + apply extractTextFromElement_textContent.
  - eexists. split; [reflexivity |]. split.
    + intros P. simpl. induction items as [|item items IH]; [constructor |].
      simpl. rewrite !Forall_app. intros [H1 H2]. split; [| now apply IH].
      destruct item; try constructor; [exact H1 |].
      now apply extractTextFromElement_units.
    + simpl. intros Hshape. f_equal.
      induction items as [|item items IH]; [reflexivity |].
      simpl in Hshape. apply andb_true_iff in Hshape.
      destruct Hshape as [H1 H2]. simpl. now rewrite IH, itemShaped_text.
Qed.

(** White space only: one run, one hyphen. *)
Lemma normalize_white_space (text : list N) :
  Forall (fun c => isWhiteSpace c = true) text ->
  normalize text = match text with [] => [] | _ :: _ => js "-" end.
Proof.
  intros Hs. unfold normalize.
  rewrite (toLowerCase_fixed isWhiteSpace) by (auto using lowerUnit_space).
  unfold replaceRuns at 3. rewrite replaceRunsFrom_all by exact Hs.
  destruct text; reflexivity.
Qed.

(** C1, as stated, does not hold: the white space around
    ["  Multiple   Spaces  "] survives as a hyphen at each end, a string
    of three spaces gives a hyphen, not the empty string, and a heading
    without children gives ["undefined"]. *)
Lemma slugify_outer_space_counterexample :
  slugify (RString (js "  Multiple   Spaces  ")) <> js "multiple-spaces"
  /\ forallb isWhiteSpace (js "   ") = true
  /\ slugify (RString (js "   ")) <> []
  /\ slugify RUndefined <> [].
Proof. repeat split; discriminate. Qed.

(** C1, amended: [slugify("  Multiple   Spaces  ")] is
    ["-multiple-spaces-"], a run of white space at either end becoming a
    hyphen.  For every heading content that is a string, an element or
    an array and whose string leaves hold white-space characters only,
    the slug is the empty string or ["-"]: the empty string when the
    leaves hold no character at all, and ["-"] when they hold one and
    every element of the content has a string or an array as children,
    every array holding strings and such elements.  Children that are
    absent or [null] give ["undefined"] and ["null"]. *)
Theorem slugify_outer_space (v : ReactNode) :
  isOtherValue v = false ->
  forallb isWhiteSpace (textContent v) = true ->
  slugify (RString (js "  Multiple   Spaces  ")) = js "-multiple-spaces-"
  /\ (slugify v = [] \/ slugify v = js "-")
  /\ (textContent v = [] -> slugify v = [])
  /\ (contentShaped v = true -> textContent v <> [] -> slugify v = js "-")
  /\ slugify RUndefined = js "undefined"
  /\ slugify RNull = js "null".
Proof.
  intros Hv Hwhite. split; [reflexivity |].
  apply forallb_Forall_true in Hwhite.
  destruct (slugify_reads v Hv) as (text & Hslug & Hunits & Hshape).
  rewrite Hslug, (normalize_white_space text) by (now apply Hunits).
  split; [destruct text; auto |].
  split; [| split; [| split; reflexivity]].
  - intros Hempty.
    assert (Hnone : Forall (fun _ => False) text)
      by (apply Hunits; rewrite Hempty; constructor).
    destruct text; [reflexivity | now inversion Hnone].
  - intros Hshaped Hsome. rewrite (Hshape Hshaped).
    destruct (textContent v); [congruence | reflexivity].
Qed.

Lemma slugify_outer_space_witness :
  slugify (RArray [ RString (js " ");
                    RElement "em" ∅ (RArray [RString (js "  ")]) ]) = js "-"
  /\ slugify (RElement "em" ∅ (RArray [])) = [].
Proof.
  split.
  - apply (slugify_outer_space
             (RArray [ RString (js " ");
                       RElement "em" ∅ (RArray [RString (js "  ")]) ])
             eq_refl eq_refl).
    + reflexivity.
    + discriminate.
  - apply (slugify_outer_space (RElement "em" ∅ (RArray [])) eq_refl eq_refl).
    reflexivity.
Defined.

(** C2, on the code: an element whose [children] is a single element
    (not an array) yields the empty slug, whatever string that inner
    element holds; [extractTextFromElement] only descends into arrays. *)
Theorem slugify_single_element_child (t1 t2 : string)
    (p1 p2 : gmap string jsstring) (s : jsstring) :
  slugify (RElement t1 p1 (RElement t2 p2 (RString s))) = [].
Proof. reflexivity. Qed.

Example slugify_em_strong :
  slugify (RElement "em" ∅ (RElement "strong" ∅ (RString (js "Hi")))) = []
  /\ slugify (RString (js "Hi")) = js "hi".
Proof. split; reflexivity. Qed.

(** The same inner element inside an array is descended into. *)
Lemma slugify_element_in_array (t1 t2 : string)
    (p1 p2 : gmap string jsstring) (s : jsstring) :
  slugify (RElement t1 p1 (RArray [RElement t2 p2 (RString s)]))
  = slugify (RString s).
Proof. unfold slugify. simpl. now rewrite app_nil_r. Qed.

(** String leaves of an array of children are joined in document
    order. *)
Lemma extractTextFromElement_strings (t : string) (p : gmap string jsstring)
    (leaves : list jsstring) :
  extractTextFromElement (RElement t p (RArray (map RString leaves)))
  = concat leaves.
Proof.
  simpl. f_equal. induction leaves as [|l leaves IH]; simpl; congruence.
Qed.

(** An element without text contributes the empty string. *)
Lemma extractTextFromElement_no_text (t : string) (p : gmap string jsstring) :
  extractTextFromElement (RElement t p RUndefined) = []
  /\ extractTextFromElement (RElement t p RNull) = []
  /\ extractTextFromElement (RElement t p (RArray [])) = [].
Proof. repeat split; reflexivity. Qed.

(** C3: slug derivation is idempotent: for every string [x],
    [slugify(slugify(x))] equals [slugify(x)]. *)
Theorem slugify_idempotent (x : jsstring) :
  slugify (RString (slugify (RString x))) = slugify (RString x).
Proof. apply slugify_fixed_point. Qed.

(** The decimal form of an integer is a normalized slug. *)
Lemma decimal_digits (d : Decimal.uint) :
  Forall (fun c => isDigit c = true) (js (NilEmpty.string_of_uint d)).
Proof.
  induction d; simpl; constructor; (reflexivity || exact IHd).
Qed.

Lemma noDoubleHyphen_digits (s : list N) :
  Forall (fun c => isDigit c = true) s ->
  noDoubleHyphen s = true /\ headNotHyphen s = true.
Proof.
  induction 1 as [|c s Hc _ [IH1 IH2]]; [now split |].
  assert (Hnot : isHyphen c = false) by classes.
  split; [apply noDoubleHyphen_cons; auto |].
  simpl. now rewrite Hnot.
Qed.

Lemma decimal_isSlug (z : Z) :
  isSlug (js (NilEmpty.string_of_int (Z.to_int z))) = true.
Proof.
  unfold isSlug. apply andb_true_iff.
  destruct (Z.to_int z) as [d | d]; simpl.
  - pose proof (decimal_digits d) as Hd.
    split; [| now apply noDoubleHyphen_digits].
    apply forallb_Forall_true. eapply Forall_impl; [exact Hd |].
    intros c Hc. classes.
  - pose proof (decimal_digits d) as Hd.
    destruct (noDoubleHyphen_digits _ Hd) as [H1 H2].
    split.
    + apply forallb_Forall_true. eapply Forall_impl; [exact Hd |].
      intros c Hc. classes.
    + change (noDoubleHyphen (0x2D :: js (NilEmpty.string_of_uint d)) = true).
      apply noDoubleHyphen_cons; auto.
Qed.

(** The decimal form read back is the integer. *)
Lemma decimal_reads_back (z : Z) :
  option_map Z.of_int
    (NilEmpty.int_of_string (NilEmpty.string_of_int (Z.to_int z)))
  = Some z.
Proof. rewrite NilEmpty.isi. simpl. f_equal. apply DecimalZ.of_to. Qed.

(** C10, as stated, does not hold: an object whose conversion to a
    string throws, such as [Object.create(null)], is neither a string,
    an element nor an array, and [slugify] throws on it. *)
Lemma slugify_other_values_counterexample :
  isOtherInput (OtherObject None) = true
  /\ slugifyValue (OtherObject None) = None.
Proof. split; reflexivity. Qed.

(** C10, amended: on an input that is neither a string, an element nor
    an array, [slugify] normalizes the input's string form.  For [null],
    [undefined] and the booleans the slug is their name; for a safe
    integer it is its decimal form, with the minus sign when negative;
    for not-a-number and the infinities it is ["nan"], ["infinity"] and
    ["-infinity"].  For another object the slug is the normalized form
    of what its conversion to a string returns, and [slugify] throws
    when that conversion throws.  Every slug returned is a normalized
    slug. *)
Theorem slugify_other_values (x : JsValue) :
  isOtherInput x = true ->
  match x with
  | NodeValue RNull => slugifyValue x = Some (js "null")
  | NodeValue RUndefined => slugifyValue x = Some (js "undefined")
  | NodeValue (RBoolean b) =>
      slugifyValue x = Some (if b then js "true" else js "false")
  | NodeValue (RNumber JsNaN) => slugifyValue x = Some (js "nan")
  | NodeValue (RNumber (JsInfinity negative)) =>
      slugifyValue x = Some (if negative then js "-infinity" else js "infinity")
  | NodeValue (RNumber (JsInteger z _)) =>
      slugifyValue x = Some (js (NilEmpty.string_of_int (Z.to_int z)))
  | NodeValue _ => True
  | OtherObject (Some text) => slugifyValue x = Some (normalize text)
  | OtherObject None => slugifyValue x = None
  end
  /\ forall slug, slugifyValue x = Some slug -> isSlug slug = true.
Proof.
  intros Hx. split.
  - destruct x as [[s | [| negative | z safe] | [|] | | | t p c | items]
                  | [text |]];
      try reflexivity; try exact I.
    + now destruct negative.
    + simpl. f_equal. unfold slugify. simpl.
      apply normalize_fixed, decimal_isSlug.
  - intros slug Hslug. destruct x as [v | [text |]]; simpl in Hslug.
    + injection Hslug as <-. apply slugify_isSlug.
    + injection Hslug as <-. apply normalize_isSlug.
    + discriminate.
Qed.

Lemma slugify_other_values_witness :
  slugifyValue (NodeValue (RNumber (JsInteger (-7) eq_refl))) = Some (js "-7")
  /\ slugifyValue (OtherObject (Some (js "[object Set]")))
     = Some (js "object-set").
Proof.
  split.
  - exact (proj1 (slugify_other_values
                    (NodeValue (RNumber (JsInteger (-7) eq_refl))) eq_refl)).
  - exact (proj1 (slugify_other_values
                    (OtherObject (Some (js "[object Set]"))) eq_refl)).
Defined.

Example slugify_primitives :
  slugify RNull = js "null" /\ slugify RUndefined = js "undefined"
  /\ slugify (RNumber (JsInteger 42 eq_refl)) = js "42"
  /\ slugify (RNumber (JsInteger (-7) eq_refl)) = js "-7"
  /\ slugify (RNumber (JsInteger 0 eq_refl)) = js "0"
  /\ slugify (RBoolean true) = js "true".
Proof. repeat split; reflexivity. Qed.

(** ** The link transformer *)

Lemma lookup_rest_union (m X : gmap string PropValue) (k k' : string) :
  k <> k' ->
  (delete k m ∪ X) !! k' = match m !! k' with Some v => Some v | None => X !! k' end.
Proof.
  intros Hne. rewrite lookup_union, lookup_delete_ne by exact Hne.
  destruct (m !! k'), (X !! k'); reflexivity.
Qed.

Lemma lookup_rest_union_same (m X : gmap string PropValue) (k : string) :
  (delete k m ∪ X) !! k = X !! k.
Proof.
  rewrite lookup_union, lookup_delete_eq. destruct (X !! k); reflexivity.
Qed.

(** C5, as stated, does not hold: the props the caller passes are laid
    over the transformer's own, so an external link passed
    [target="_self"] keeps it, and a same-page anchor passed
    [target="_blank"] opens a new tab. *)
Lemma CustomLink_target_counterexample :
  match CustomLink (mkProps (<[ "href" := PString (js "https://example.com") ]>
                              {[ "target" := PString (js "_self") ]})
                            (RString (js "site"))) with
  | Rendered e => elType e = "a"
                  /\ elProps e !! "target" = Some (PString (js "_self"))
                  /\ elProps e !! "target" <> Some (PString (js "_blank"))
  | _ => False
  end
  /\ match CustomLink (mkProps (<[ "href" := PString (js "#top") ]>
                                 {[ "target" := PString (js "_blank") ]})
                               (RString (js "top"))) with
     | Rendered e => elType e = "a"
                     /\ elProps e !! "target" = Some (PString (js "_blank"))
     | _ => False
     end.
Proof. vm_compute. repeat split; discriminate. Qed.

(** When the caller passes neither [target] nor [rel], the three cases
    are those of the specification. *)
Lemma CustomLink_plain (p : Props) (href : jsstring) :
  attrs p !! "href" = Some (PString href) ->
  attrs p !! "target" = None -> attrs p !! "rel" = None ->
  exists e,
    CustomLink p = Rendered e
    /\ if startsWith (js "/") href then elType e = "SmartLink"
       else if startsWith (js "#") href then
         elType e = "a" /\ elProps e !! "target" = None
       else
         elType e = "a"
         /\ elProps e !! "target" = Some (PString (js "_blank"))
         /\ elProps e !! "rel" = Some (PString (js "noopener noreferrer")).
Proof.
  intros Hhref Ht Hr. unfold CustomLink. rewrite Hhref.
  destruct (startsWith (js "/") href);
    [| destruct (startsWith (js "#") href)];
    eexists; (split; [reflexivity |]); simpl.
  - reflexivity.
  - split; [reflexivity |].
    now rewrite lookup_rest_union, Ht by discriminate.
  - split; [reflexivity |].
    split; rewrite lookup_rest_union by discriminate.
    + now rewrite Ht.
    + now rewrite Hr.
Qed.

(** An [href] that is absent makes the call throw. *)
Lemma CustomLink_without_href (p : Props) :
  attrs p !! "href" = None -> CustomLink p = Thrown.
Proof. intros H. unfold CustomLink. now rewrite H. Qed.

Lemma rest_union_href (m : gmap string PropValue) (v : PropValue) :
  m !! "href" = Some v -> delete "href" m ∪ {[ "href" := v ]} = m.
Proof.
  intros Hm. apply map_eq. intros k. rewrite lookup_union.
  destruct (decide ("href" = k)) as [<- | Hk].
  - now rewrite lookup_delete_eq, lookup_singleton_eq, Hm.
  - rewrite lookup_delete_ne, lookup_singleton_ne by exact Hk.
    now destruct (m !! k).
Qed.

(** C5, amended: for every link whose [href] is a string, the link
    transformer renders an element with that [href] and the link's
    children, in exactly one of three cases, and in each case the props
    the caller passed are spread last: every one of them is on the
    element as passed.  If [href] begins with ["/"] it is the internal
    link component, with the caller's props and no other.  Otherwise, if
    [href] begins with ["#"], it is a plain anchor with the caller's
    props and no other: the transformer adds neither [target] nor [rel].
    Otherwise it is an anchor with the caller's props laid over
    [target="_blank"] and [rel="noopener noreferrer"]: these two show
    unless the caller passed a [target] or a [rel] of its own, which
    then stands in its place. *)
Theorem CustomLink_classification (p : Props) (href : jsstring) :
  attrs p !! "href" = Some (PString href) ->
  exists e,
    CustomLink p = Rendered e
    /\ elChildren e = children p
    /\ elProps e !! "href" = Some (PString href)
    /\ (forall name v, attrs p !! name = Some v -> elProps e !! name = Some v)
    /\ if startsWith (js "/") href then
         elType e = "SmartLink"
         /\ elProps e = attrs p
       else if startsWith (js "#") href then
         elType e = "a"
         /\ elProps e = attrs p
         /\ elProps e !! "target" = attrs p !! "target"
         /\ elProps e !! "rel" = attrs p !! "rel"
       else
         elType e = "a"
         /\ elProps e
            = attrs p ∪ <[ "target" := PString (js "_blank") ]>
                          {[ "rel" := PString (js "noopener noreferrer") ]}
         /\ elProps e !! "target"
            = Some (default (PString (js "_blank")) (attrs p !! "target"))
         /\ elProps e !! "rel"
            = Some (default (PString (js "noopener noreferrer")) (attrs p !! "rel")).
Proof.
  intros Hhref. unfold CustomLink. rewrite Hhref.
  destruct (startsWith (js "/") href);
    [| destruct (startsWith (js "#") href)];
    eexists; (split; [reflexivity |]); (split; [reflexivity |]); simpl.
  - rewrite (rest_union_href _ _ Hhref).
    split; [exact Hhref |]. split; [auto |]. split; reflexivity.
  - rewrite (rest_union_href _ _ Hhref).
    split; [exact Hhref |]. split; [auto |]. repeat split; reflexivity.
  - assert (Hprops :
              delete "href" (attrs p)
              ∪ <[ "href" := PString href ]>
                  (<[ "target" := PString (js "_blank") ]>
                     {[ "rel" := PString (js "noopener noreferrer") ]})
              = attrs p ∪ <[ "target" := PString (js "_blank") ]>
                            {[ "rel" := PString (js "noopener noreferrer") ]}).
    { apply map_eq. intros k. rewrite !lookup_union.
      destruct (decide ("href" = k)) as [<- | Hk].
      - rewrite lookup_delete_eq, lookup_insert_eq, Hhref.
        rewrite lookup_insert_ne, lookup_singleton_ne by discriminate.
        reflexivity.
      - rewrite lookup_delete_ne, (lookup_insert_ne _ "href") by exact Hk.
        reflexivity. }
    rewrite Hprops.
    split; [rewrite lookup_union, Hhref;
            now rewrite lookup_insert_ne, lookup_singleton_ne by discriminate |].
    split.
    { intros name v Hname. now apply lookup_union_Some_l. }
    split; [reflexivity |]. split; [reflexivity |].
    split; rewrite lookup_union.
    + rewrite lookup_insert_eq. now destruct (attrs p !! "target").
    + rewrite lookup_insert_ne, lookup_singleton_eq by discriminate.
      now destruct (attrs p !! "rel").
Qed.

Lemma CustomLink_classification_witness :
  exists e,
    CustomLink (mkProps {[ "href" := PString (js "https://example.com") ]}
                  (RString (js "site"))) = Rendered e
    /\ elType e = "a"
    /\ elProps e !! "target" = Some (PString (js "_blank"))
    /\ elProps e !! "rel" = Some (PString (js "noopener noreferrer")).
Proof.
  assert (Hhref : attrs (mkProps {[ "href" := PString (js "https://example.com") ]}
                           (RString (js "site"))) !! "href"
                  = Some (PString (js "https://example.com")))
    by reflexivity.
  destruct (CustomLink_classification _ _ Hhref)
    as (e & He & _ & _ & _ & Htype & _ & Htarget & Hrel).
  exists e. split; [exact He |]. split; [exact Htype |].
  split; [exact Htarget | exact Hrel].
Defined.

(** ** The image transformer *)

Lemma components_img upper : components upper !! "img" = Some createImage.
Proof. reflexivity. Qed.

(** A node that renders nothing leaves the output of its siblings as it
    would be without the node. *)
Lemma renderSiblings_nothing (table : gmap string Component) (n : MdxNode)
    (log : list jsstring) (pre post : list MdxNode) :
  renderNode table n = (RenderedNothing, log) ->
  (renderSiblings table (pre ++ n :: post)).1
  = (renderSiblings table (pre ++ post)).1.
Proof.
  intros Hn. induction pre as [|m pre IH]; simpl.
  - rewrite Hn. now destruct (renderSiblings table post).
  - destruct (renderNode table m) as [[e | |] logm]; [| | reflexivity];
      destruct (renderSiblings table (pre ++ n :: post)),
               (renderSiblings table (pre ++ post));
      simpl in *; congruence.
Qed.

(** C6: for every image node whose source is empty or absent, the image
    transformer logs an error and returns [null], not an element and not
    a thrown error; with the image transformer in the table, the output
    rendered for the siblings of such a node is what it is without the
    node. *)
Theorem createImage_without_src (p : Props) :
  attrs p !! "src" = None \/ attrs p !! "src" = Some (PString []) ->
  createImage p
  = (RenderedNothing, [js "SmartImage requires a valid 'src' property."])
  /\ forall (table : gmap string Component) (pre post : list MdxNode),
       table !! "img" = Some createImage ->
       (renderSiblings table (pre ++ mkMdxNode "img" p :: post)).1
       = (renderSiblings table (pre ++ post)).1.
Proof.
  intros Hsrc.
  assert (Hnull : createImage p
                  = (RenderedNothing,
                     [js "SmartImage requires a valid 'src' property."])).
  { unfold createImage. destruct Hsrc as [-> | ->]; reflexivity. }
  split; [exact Hnull |].
  intros table pre post Himg.
  apply renderSiblings_nothing
    with (log := [js "SmartImage requires a valid 'src' property."]).
  unfold renderNode. simpl. now rewrite Himg.
Qed.

Lemma createImage_without_src_witness :
  createImage (mkProps {[ "alt" := PString (js "diagram") ]} RUndefined)
  = (RenderedNothing, [js "SmartImage requires a valid 'src' property."])
  /\ (renderSiblings (components (fun c => [c]))
        [ mkMdxNode "p" (mkProps ∅ (RString (js "before")));
          mkMdxNode "img" (mkProps {[ "alt" := PString (js "diagram") ]} RUndefined);
          mkMdxNode "p" (mkProps ∅ (RString (js "after"))) ]).1
     = (renderSiblings (components (fun c => [c]))
          [ mkMdxNode "p" (mkProps ∅ (RString (js "before")));
            mkMdxNode "p" (mkProps ∅ (RString (js "after"))) ]).1.
Proof.
  assert (Hsrc : attrs (mkProps {[ "alt" := PString (js "diagram") ]} RUndefined)
                   !! "src" = None
                 \/ attrs (mkProps {[ "alt" := PString (js "diagram") ]} RUndefined)
                      !! "src" = Some (PString []))
    by (left; reflexivity).
  destruct (createImage_without_src _ Hsrc) as [Hnull Hsiblings].
  split; [exact Hnull |].
  exact (Hsiblings (components (fun c => [c]))
           [mkMdxNode "p" (mkProps ∅ (RString (js "before")))]
           [mkMdxNode "p" (mkProps ∅ (RString (js "after")))]
           (components_img _)).
Defined.

(** With a source the image is rendered, and nothing is logged. *)
Lemma createImage_with_src (p : Props) (src : jsstring) :
  attrs p !! "src" = Some (PString src) -> src <> [] ->
  exists e, createImage p = (Rendered e, [])
    /\ elType e = "SmartImage"
    /\ elProps e !! "src" = Some (PString src).
Proof.
  intros Hsrc Hne. unfold createImage. rewrite Hsrc. simpl.
  rewrite bool_decide_eq_false_2 by exact Hne. simpl.
  eexists. split; [reflexivity |]. split; [reflexivity |]. simpl.
  rewrite lookup_union, lookup_delete_ne, lookup_delete_eq by discriminate.
  now rewrite lookup_insert_eq.
Qed.

(** ** The code-block transformer *)

Example replaceFirst_language :
  replaceFirst (js "language-") [] (js "language-python") = js "python"
  /\ replaceFirst (js "language-") [] (js "hljs language-js") = js "hljs js"
  /\ replaceFirst (js "language-") [] (js "plain") = js "plain".
Proof. repeat split; reflexivity. Qed.

(** C7: a code block whose enclosing node carries the class
    ["language-python"] is rendered as a code block with the language
    ["python"], the label ["Python"] and the copy button; a code block
    with no class annotation is rendered as the [pre] element it came
    as. *)
Theorem createCodeBlock_language (upperOutsideAscii : N -> jsstring)
    (props : Props) :
  (childClassName props = Some (js "language-python") ->
   createCodeBlock upperOutsideAscii props
   = Rendered (mkElement "CodeBlock"
                 (<[ "marginTop" := PString (js "8") ]>
                 (<[ "marginBottom" := PString (js "16") ]>
                 (<[ "codeInstances" :=
                       PCodeInstances
                         [mkCodeInstance (childChildren props)
                            (js "python") (js "Python")] ]>
                 {[ "copyButton" := PBoolean true ]})))
                 RUndefined))
  /\ (childClassName props = None ->
      createCodeBlock upperOutsideAscii props
      = Rendered (mkElement "pre" (attrs props) (children props))).
Proof.
  unfold childClassName, childChildren, createCodeBlock.
  split; intros Hclass.
  - destruct (children props); try discriminate Hclass.
    rewrite Hclass. reflexivity.
  - destruct (children props); try reflexivity.
    rewrite Hclass. reflexivity.
Qed.

Lemma createCodeBlock_language_witness :
  createCodeBlock (fun c => [c])
    (mkProps ∅ (RElement "code" {[ "className" := js "language-python" ]}
                  (RString (js "print(1)"))))
  = Rendered (mkElement "CodeBlock"
                (<[ "marginTop" := PString (js "8") ]>
                (<[ "marginBottom" := PString (js "16") ]>
                (<[ "codeInstances" :=
                      PCodeInstances
                        [mkCodeInstance (RString (js "print(1)"))
                           (js "python") (js "Python")] ]>
                {[ "copyButton" := PBoolean true ]})))
                RUndefined)
  /\ createCodeBlock (fun c => [c])
       (mkProps ∅ (RElement "code" ∅ (RString (js "plain text"))))
     = Rendered (mkElement "pre" ∅
                   (RElement "code" ∅ (RString (js "plain text")))).
Proof.
  split.
  - apply (proj1 (createCodeBlock_language (fun c => [c])
                    (mkProps ∅ (RElement "code"
                                  {[ "className" := js "language-python" ]}
                                  (RString (js "print(1)")))))).
    reflexivity.
  - apply (proj2 (createCodeBlock_language (fun c => [c])
                    (mkProps ∅ (RElement "code" ∅ (RString (js "plain text")))))).
    reflexivity.
Defined.

(** An empty class reads as none. *)
Lemma createCodeBlock_empty_class (upperOutsideAscii : N -> jsstring)
    (props : Props) :
  childClassName props = Some [] ->
  createCodeBlock upperOutsideAscii props
  = Rendered (mkElement "pre" (attrs props) (children props)).
Proof.
  unfold childClassName, createCodeBlock. intros Hclass.
  destruct (children props); try discriminate Hclass. now rewrite Hclass.
Qed.

(** ** The merged table *)

Lemma CustomMDX_lookup (upperOutsideAscii : N -> jsstring)
    (props : CustomMDXProps) (k : string) :
  mdxComponents (CustomMDX upperOutsideAscii props) !! k
  = match default ∅ (overrides props) !! k with
    | Some c => Some c
    | None => components upperOutsideAscii !! k
    end.
Proof.
  unfold CustomMDX. simpl. rewrite lookup_union.
  destruct (default ∅ (overrides props) !! k),
           (components upperOutsideAscii !! k); reflexivity.
Qed.

(** C8: for every override map, the merged table of the content renderer
    holds the override's entry at each kind the override map has and the
    default entry at every other kind; a node of a kind the override map
    has is rendered by the override's entry. *)
Theorem CustomMDX_override_wins (upperOutsideAscii : N -> jsstring)
    (props : CustomMDXProps) (k : string) :
  let table := mdxComponents (CustomMDX upperOutsideAscii props) in
  let given := default ∅ (overrides props) in
  (forall c, given !! k = Some c ->
     table !! k = Some c
     /\ forall node, kind node = k -> renderNode table node = c (nodeProps node))
  /\ (given !! k = None -> table !! k = components upperOutsideAscii !! k).
Proof.
  intros table given. subst table given. split.
  - intros c Hc.
    assert (Hk : mdxComponents (CustomMDX upperOutsideAscii props) !! k = Some c)
      by (now rewrite CustomMDX_lookup, Hc).
    split; [exact Hk |].
    intros node Hnode. unfold renderNode. now rewrite Hnode, Hk.
  - intros Hnone. now rewrite CustomMDX_lookup, Hnone.
Qed.

Lemma CustomMDX_override_wins_witness :
  mdxComponents
    (CustomMDX (fun c => [c])
       (mkCustomMDXProps (js "# Title")
          (Some {[ "h1" := libraryComponent "Banner" ]}))) !! "h1"
  = Some (libraryComponent "Banner")
  /\ renderNode
       (mdxComponents
          (CustomMDX (fun c => [c])
             (mkCustomMDXProps (js "# Title")
                (Some {[ "h1" := libraryComponent "Banner" ]}))))
       (mkMdxNode "h1" (mkProps ∅ (RString (js "Title"))))
     = (Rendered (mkElement "Banner" ∅ (RString (js "Title"))), []).
Proof.
  assert (Hgiven : default ∅ (overrides
                      (mkCustomMDXProps (js "# Title")
                         (Some {[ "h1" := libraryComponent "Banner" ]}))) !! "h1"
                   = Some (libraryComponent "Banner"))
    by reflexivity.
  destruct (proj1 (CustomMDX_override_wins (fun c => [c])
                     (mkCustomMDXProps (js "# Title")
                        (Some {[ "h1" := libraryComponent "Banner" ]}))
                     "h1")
              (libraryComponent "Banner") Hgiven) as [Htable Hrender].
  split; [exact Htable |].
  exact (Hrender (mkMdxNode "h1" (mkProps ∅ (RString (js "Title")))) eq_refl).
Defined.

Example CustomMDX_without_overrides (upperOutsideAscii : N -> jsstring)
    (text : list N) :
  mdxComponents (CustomMDX upperOutsideAscii (mkCustomMDXProps text None))
  = components upperOutsideAscii.
Proof. unfold CustomMDX. simpl. apply (left_id_L ∅ (∪)). Qed.

(** ** The project list *)

Section SortFacts.

Context {A : Type}.
Variable comparefn : A -> A -> option Z.

Lemma insertSorted_Permutation (x : A) (l : list A) :
  Permutation (insertSorted comparefn x l) (x :: l).
Proof.
  induction l as [|y l IH]; simpl; [reflexivity |].
  destruct (0 <? SortCompare comparefn x y)%Z; [| reflexivity].
  rewrite IH. apply perm_swap.
Qed.

(** [sort] rearranges: nothing is lost and nothing is added. *)
Lemma sort_Permutation (l : list A) : Permutation (sort comparefn l) l.
Proof.
  unfold sort. induction l as [|x l IH]; simpl; [reflexivity |].
  rewrite insertSorted_Permutation. now constructor.
Qed.

End SortFacts.

Section ProjectFacts.

Variable getTime : list N -> option Z.

Lemma laterThan_trans (a b c : Post) :
  laterThan getTime a b -> laterThan getTime b c -> laterThan getTime a c.
Proof.
  unfold laterThan.
  destruct (publishedTime getTime a), (publishedTime getTime b),
           (publishedTime getTime c); try tauto; lia.
Qed.

Lemma insertSorted_descending (x : Post) (l : list Post) :
  is_Some (publishedTime getTime x) ->
  Forall (fun y => is_Some (publishedTime getTime y)) l ->
  Forall (fun y => publishedTime getTime x <> publishedTime getTime y) l ->
  StronglySorted (laterThan getTime) l ->
  StronglySorted (laterThan getTime) (insertSorted (compareProjects getTime) x l).
Proof.
  intros [tx Hx] Hdated Hdistinct Hsorted.
  induction Hsorted as [|y l Hsorted IH Hy]; simpl.
  - repeat constructor.
  - inversion Hdated as [|? ? [ty Hty] Hdated']; subst.
    inversion Hdistinct as [|? ? Hxy Hdistinct']; subst.
    assert (Hcmp : SortCompare (compareProjects getTime) x y = (ty - tx)%Z).
    { unfold SortCompare, compareProjects. now rewrite Hty, Hx. }
    rewrite Hcmp. destruct (Z.ltb_spec 0 (ty - tx)) as [Hlt | Hge].
    + constructor; [now apply IH |].
      rewrite insertSorted_Permutation. constructor; [| exact Hy].
      unfold laterThan. rewrite Hty, Hx. lia.
    + assert (Hlater : laterThan getTime x y).
      { unfold laterThan. rewrite Hty, Hx.
        assert (tx <> ty) by (intros ->; apply Hxy; congruence). lia. }
      constructor; [now constructor |].
      constructor; [exact Hlater |].
      eapply Forall_impl; [exact Hy |].
      intros z Hz. now apply laterThan_trans with y.
Qed.

Lemma sortedProjects_sorted (posts : list Post) :
  Forall (fun p => is_Some (publishedTime getTime p)) posts ->
  NoDup (map (publishedTime getTime) posts) ->
  StronglySorted (laterThan getTime) (sortedProjects getTime posts).
Proof.
  unfold sortedProjects, sort.
  induction posts as [|x posts IH]; intros Hdated Hdistinct; simpl.
  - constructor.
  - inversion Hdated as [|? ? Hx Hdated']; subst.
    apply NoDup_cons in Hdistinct. destruct Hdistinct as [Hfresh Hdistinct].
    apply insertSorted_descending.
    + exact Hx.
    + fold (sort (compareProjects getTime) posts).
      now rewrite sort_Permutation.
    + fold (sort (compareProjects getTime) posts).
      rewrite sort_Permutation. apply Forall_forall. intros y Hy Heq.
      apply Hfresh. rewrite Heq. apply list_elem_of_fmap. now exists y.
    + now apply IH.
Qed.

End ProjectFacts.

(** C9: for every collection of at least two post records whose
    [publishedAt] dates are pairwise distinct points in time, the sorter
    of the project list produces a permutation of the collection in
    strictly descending order: every post is strictly later than all the
    posts after it. *)
Theorem sortedProjects_descending (getTime : list N -> option Z)
    (posts : list Post) :
  (2 <= length posts)%nat ->
  Forall (fun p => is_Some (publishedTime getTime p)) posts ->
  NoDup (map (publishedTime getTime) posts) ->
  Permutation (sortedProjects getTime posts) posts
  /\ StronglySorted (laterThan getTime) (sortedProjects getTime posts).
Proof.
  intros _ Hdated Hdistinct. split.
  - apply sort_Permutation.
  - now apply sortedProjects_sorted.
Qed.

Lemma sortedProjects_descending_witness :
  Permutation (sortedProjects exampleTime exampleProjects) exampleProjects
  /\ StronglySorted (laterThan exampleTime)
       (sortedProjects exampleTime exampleProjects).
Proof.
  apply (sortedProjects_descending exampleTime exampleProjects).
  - simpl. lia.
  - repeat constructor; eexists; reflexivity.
  - apply (bool_decide_unpack _). vm_compute. exact I.
Defined.

Example sortedProjects_example :
  sortedProjects exampleTime exampleProjects
  = [ examplePost "piz" "2025-03-05";
      examplePost "sorting-visualizer" "2025-01-01";
      examplePost "omninum" "2024-02-08" ].
Proof. reflexivity. Qed.

(** ** The auth route *)

(** C4: the auth endpoint answers 200 with [authenticated = true] if and
    only if the cookies read from the request's cookie header hold
    [authToken] with the value ["authenticated"]; on every other request
    it answers 401 with [authenticated = false]; and it gives no other
    answer. *)
Theorem GET_authenticated_iff
    (cookie_parse : list N -> gmap (list N) (list N)) (request : NextRequest) :
  let cookies := cookie_parse (default [] (headers request !! "cookie")) in
  (GET cookie_parse request = mkNextResponse true 200
   <-> cookies !! js "authToken" = Some (js "authenticated"))
  /\ (cookies !! js "authToken" <> Some (js "authenticated")
      -> GET cookie_parse request = mkNextResponse false 401)
  /\ (GET cookie_parse request = mkNextResponse true 200
      \/ GET cookie_parse request = mkNextResponse false 401).
Proof.
  intros cookies. unfold GET. fold cookies.
  case_bool_decide as Hcookie.
  - split; [tauto |]. split; [intros Hne; contradiction | now left].
  - split; [| split; [reflexivity | now right]].
    split; [discriminate | intros Heq; contradiction].
Qed.

Lemma GET_authenticated_iff_witness :
  GET exampleCookies
    (mkNextRequest {[ "cookie" := js "authToken=authenticated" ]})
  = mkNextResponse true 200
  /\ GET exampleCookies (mkNextRequest {[ "cookie" := js "authToken=guest" ]})
     = mkNextResponse false 401
  /\ GET exampleCookies (mkNextRequest ∅) = mkNextResponse false 401.
Proof.
  split; [| split].
  - apply (proj1 (GET_authenticated_iff exampleCookies
                    (mkNextRequest {[ "cookie" := js "authToken=authenticated" ]}))).
    reflexivity.
  - apply (proj1 (proj2 (GET_authenticated_iff exampleCookies
                           (mkNextRequest {[ "cookie" := js "authToken=guest" ]})))).
    vm_compute. discriminate.
  - apply (proj1 (proj2 (GET_authenticated_iff exampleCookies (mkNextRequest ∅)))).
    vm_compute. discriminate.
Defined.

(** * Further properties *)

(** ** The slug deriver on every node *)

(** X1: For every node, whatever its shape, the slug is made of small
    letters, digits, underscores and hyphens only, and no hyphen follows
    a hyphen. *)
Theorem slugify_url_safe (v : ReactNode) :
  forallb isSlugChar (slugify v) = true /\ noDoubleHyphen (slugify v) = true.
Proof.
  apply andb_true_iff. change (isSlug (slugify v) = true).
  unfold slugify. apply normalize_isSlug.
Qed.

Lemma toLowerCase_asciiUpperCase (s : list N) :
  toLowerCase (asciiUpperCase s) = toLowerCase s.
Proof.
  unfold toLowerCase, asciiUpperCase.
  induction s as [|c s IH]; simpl; [reflexivity |].
  rewrite IH. f_equal.
  destruct (isLower c) eqn:Hlow; [| reflexivity].
  assert (Hup : isUpper (c - 0x20) = true) by classes.
  assert (Hc : lowerUnit c = [c]) by (apply lowerUnit_fixed; classes).
  rewrite Hc. unfold lowerUnit. rewrite Hup. f_equal. classes.
Qed.

(** X2: The case of Basic Latin letters does not reach the slug: a
    string and the same string with its small letters [a] to [z]
    written as capitals have the same slug, so headings that differ
    only in that get the same id. *)
Theorem slugify_ignores_case (s : list N) :
  slugify (RString (asciiUpperCase s)) = slugify (RString s).
Proof.
  unfold slugify, normalize. now rewrite toLowerCase_asciiUpperCase.
Qed.

Example slugify_upper_and_lower :
  slugify (RString (js "GETTING started")) = js "getting-started"
  /\ slugify (RString (js "getting STARTED")) = js "getting-started".
Proof. split; reflexivity. Qed.

(** X3: On heading content in which every element has a string or an array
    as children, and every array holds strings and such elements only,
    the slug is the normalized form of all string leaves in document
    order, at every depth. *)
Theorem slugify_textContent (v : ReactNode) :
  contentShaped v = true -> slugify v = normalize (textContent v).
Proof.
  intros Hshape. unfold slugify. f_equal.
  destruct v as [s | | | | | t p c | items]; try discriminate.
  - reflexivity.
  - now apply extractTextFromElement_textContent.
  - simpl. f_equal. simpl in Hshape.
    induction items as [|item items IH]; [reflexivity |].
    simpl in Hshape. apply andb_true_iff in Hshape. destruct Hshape as [H1 H2].
    simpl. now rewrite IH, itemShaped_text.
Qed.

Lemma slugify_textContent_witness :
  slugify (RArray [ RString (js "Use ");
                    RElement "em" ∅
                      (RArray [ RElement "code" ∅ (RString (js "map"));
                                RString (js " & ") ]);
                    RString (js "filter") ])
  = js "use-map-and-filter".
Proof.
  rewrite slugify_textContent by reflexivity. reflexivity.
Defined.

(** X4: In an array, only strings and elements are read: numbers, booleans,
    [null], [undefined] and arrays inside the array add nothing to the
    slug. *)
Theorem slugify_array_reads_text_items (items : list ReactNode) :
  slugify (RArray items) = slugify (RArray (List.filter isTextItem items)).
Proof.
  unfold slugify. f_equal.
  induction items as [|item items IH]; [reflexivity |].
  simpl. rewrite IH. destruct item; reflexivity.
Qed.

Example slugify_array_with_number :
  slugify (RArray [RString (js "Version "); RNumber (JsInteger 2 eq_refl)])
  = js "version-".
Proof. reflexivity. Qed.

(** X5: A string made only of characters that are neither word characters,
    hyphens, white space nor ampersands (and not one of the two
    characters whose lower case is a letter) has the empty slug:
    punctuation, accented and non-Latin letters and emoji all go. *)
Theorem slugify_dropped_only (s : list N) :
  forallb isDropped s = true -> slugify (RString s) = [].
Proof.
  intros Hs. apply forallb_Forall_true in Hs.
  unfold slugify, normalize.
  rewrite (toLowerCase_fixed isDropped); [| | exact Hs].
  2:{ intros c Hc. unfold isDropped in Hc.
      repeat (apply andb_true_iff in Hc; destruct Hc as [Hc ?]).
      apply lowerUnit_fixed; classes. }
  rewrite (replaceRuns_fixed isWhiteSpace).
  2:{ eapply Forall_impl; [exact Hs |]. intros c Hc. unfold isDropped in Hc.
      repeat (apply andb_true_iff in Hc; destruct Hc as [Hc ?]).
      now apply negb_true_iff. }
  rewrite replaceEach_fixed.
  2:{ eapply Forall_impl; [exact Hs |]. intros c Hc. unfold isDropped in Hc.
      repeat (apply andb_true_iff in Hc; destruct Hc as [Hc ?]).
      now apply negb_true_iff. }
  unfold replaceRuns at 2. rewrite replaceRunsFrom_all.
  2:{ eapply Forall_impl; [exact Hs |]. intros c Hc. unfold isDropped in Hc.
      repeat (apply andb_true_iff in Hc; destruct Hc as [Hc ?]). exact Hc. }
  destruct s; reflexivity.
Qed.

Lemma slugify_dropped_only_witness :
  slugify (RString [0x3F; 0x21; 0xE9; 0x65E5; 0xD83D; 0xDE80]) = [].
Proof. apply slugify_dropped_only. reflexivity. Defined.

(** A heading of the repository's own content: the emoji goes, the space
    after it stays as a leading hyphen. *)
Example slugify_emoji_heading :
  slugify (RString ([0xD83D; 0xDE80] ++ js " What Makes OMNINUM Special?"))
  = js "-what-makes-omninum-special".
Proof. reflexivity. Qed.

(** ** Headings *)

Lemma lookup_union_default (m X : gmap string PropValue) (k : string)
    (d : PropValue) :
  X !! k = Some d -> (m ∪ X) !! k = Some (default d (m !! k)).
Proof.
  intros HX. rewrite lookup_union, HX. now destruct (m !! k).
Qed.

(** X6: With the default table, a heading node of level [h1] to [h6] is
    rendered as a heading link of that same level whose [id] is the slug
    of its children, a normalized slug, unless the caller passes an [as]
    or an [id] of its own; nothing is logged. *)
Theorem heading_id_is_slug (upperOutsideAscii : N -> list N)
    (level : string) (p : Props) :
  level ∈ ["h1"; "h2"; "h3"; "h4"; "h5"; "h6"] ->
  exists e,
    renderNode (components upperOutsideAscii) (mkMdxNode level p)
    = (Rendered e, [])
    /\ elType e = "HeadingLink"
    /\ elChildren e = children p
    /\ elProps e !! "as" = Some (default (PString (js level)) (attrs p !! "as"))
    /\ elProps e !! "id"
       = Some (default (PString (slugify (children p))) (attrs p !! "id"))
    /\ isSlug (slugify (children p)) = true.
Proof.
  intros Hlevel.
  assert (Htable : components upperOutsideAscii !! level
                   = Some (silent (createHeading level))).
  { repeat (apply elem_of_cons in Hlevel; destruct Hlevel as [-> | Hlevel];
            [reflexivity |]).
    now apply elem_of_nil in Hlevel. }
  unfold renderNode. cbn [kind nodeProps]. rewrite Htable.
  unfold silent, createHeading.
  eexists. split; [reflexivity |]. cbn [elType elProps elChildren].
  split; [reflexivity |]. split; [reflexivity |].
  split; [| split].
  - apply lookup_union_default.
    rewrite lookup_insert_ne, lookup_insert_eq by discriminate. reflexivity.
  - apply lookup_union_default.
    rewrite !lookup_insert_ne, lookup_singleton_eq by discriminate. reflexivity.
  - unfold slugify. apply normalize_isSlug.
Qed.

Lemma heading_id_is_slug_witness :
  exists e,
    renderNode (components (fun c => [c]))
      (mkMdxNode "h2" (mkProps ∅ (RString (js "Getting Started"))))
    = (Rendered e, [])
    /\ elProps e !! "id" = Some (PString (js "getting-started")).
Proof.
  assert (Hlevel : "h2" ∈ ["h1"; "h2"; "h3"; "h4"; "h5"; "h6"])
    by (apply list_elem_of_further, list_elem_of_here).
  destruct (heading_id_is_slug (fun c => [c]) "h2"
              (mkProps ∅ (RString (js "Getting Started"))) Hlevel)
    as (e & He & _ & _ & _ & Hid & _).
  exists e. split; [exact He | exact Hid].
Defined.

(** ** Code blocks with any language *)

Lemma replaceFirst_unfold (pattern replacement s : list N) :
  replaceFirst pattern replacement s
  = if startsWith pattern s then replacement ++ drop (length pattern) s
    else match s with
         | [] => []
         | c :: s' => c :: replaceFirst pattern replacement s'
         end.
Proof. destruct s; reflexivity. Qed.

Lemma startsWith_app (pattern s : list N) : startsWith pattern (pattern ++ s) = true.
Proof.
  induction pattern as [|a pattern IH]; simpl; [reflexivity |].
  now rewrite N.eqb_refl, IH.
Qed.

(** A pattern at the start of the string is what [replace] replaces. *)
Lemma replaceFirst_prefix (pattern replacement s : list N) :
  replaceFirst pattern replacement (pattern ++ s) = replacement ++ s.
Proof.
  rewrite replaceFirst_unfold, startsWith_app.
  now rewrite drop_app_length.
Qed.

(** A string without the pattern is left as it is. *)
Lemma replaceFirst_absent (pattern replacement s : list N) :
  (forall i, startsWith pattern (drop i s) = false) ->
  replaceFirst pattern replacement s = s.
Proof.
  induction s as [|c s IH]; intros Habsent.
  - rewrite replaceFirst_unfold.
    pose proof (Habsent 0%nat) as H0. simpl in H0. now rewrite H0.
  - rewrite replaceFirst_unfold.
    pose proof (Habsent 0%nat) as H0. simpl in H0. rewrite H0. f_equal.
    apply IH. intros i. exact (Habsent (S i)).
Qed.

Lemma createCodeBlock_class (upperOutsideAscii : N -> list N) (props : Props)
    (className : list N) :
  childClassName props = Some className -> className <> [] ->
  createCodeBlock upperOutsideAscii props
  = Rendered (mkElement "CodeBlock"
                (<[ "marginTop" := PString (js "8") ]>
                (<[ "marginBottom" := PString (js "16") ]>
                (<[ "codeInstances" :=
                      PCodeInstances
                        [mkCodeInstance (childChildren props)
                           (replaceFirst (js "language-") [] className)
                           (toUpperCase upperOutsideAscii
                              (charAt0 (replaceFirst (js "language-") [] className))
                            ++ slice1 (replaceFirst (js "language-") [] className))] ]>
                {[ "copyButton" := PBoolean true ]})))
                RUndefined).
Proof.
  unfold childClassName, childChildren, createCodeBlock. intros Hclass Hne.
  destruct (children props); try discriminate Hclass.
  rewrite Hclass. now rewrite bool_decide_eq_false_2 by exact Hne.
Qed.

(** X7: For every language name, the class ["language-"] followed by the
    name gives a code block with that name as language; the label is the
    name with its first character in upper case when that character is a
    small Basic Latin letter, and the name itself when it is any other
    ASCII character or when the name is empty. *)
Theorem createCodeBlock_any_language (upperOutsideAscii : N -> list N)
    (props : Props) (name : list N) :
  childClassName props = Some (js "language-" ++ name) ->
  match name with [] => True | c :: _ => c < 0x80 end ->
  createCodeBlock upperOutsideAscii props
  = Rendered (mkElement "CodeBlock"
                (<[ "marginTop" := PString (js "8") ]>
                (<[ "marginBottom" := PString (js "16") ]>
                (<[ "codeInstances" :=
                      PCodeInstances
                        [mkCodeInstance (childChildren props) name
                           match name with
                           | [] => []
                           | c :: rest =>
                               (if isLower c then c - 0x20 else c) :: rest
                           end] ]>
                {[ "copyButton" := PBoolean true ]})))
                RUndefined).
Proof.
  intros Hclass Hascii.
  rewrite (createCodeBlock_class _ _ _ Hclass) by discriminate.
  rewrite replaceFirst_prefix. simpl app.
  do 5 f_equal. destruct name as [|c rest]; [reflexivity |].
  unfold charAt0, slice1, toUpperCase, upperUnit. simpl.
  destruct (isLower c); [reflexivity |].
  apply N.ltb_lt in Hascii. now rewrite Hascii.
Qed.

Lemma createCodeBlock_any_language_witness :
  createCodeBlock (fun c => [c])
    (mkProps ∅ (RElement "code" {[ "className" := js "language-typescript" ]}
                  (RString (js "let x = 1"))))
  = Rendered (mkElement "CodeBlock"
                (<[ "marginTop" := PString (js "8") ]>
                (<[ "marginBottom" := PString (js "16") ]>
                (<[ "codeInstances" :=
                      PCodeInstances
                        [mkCodeInstance (RString (js "let x = 1"))
                           (js "typescript") (js "Typescript")] ]>
                {[ "copyButton" := PBoolean true ]})))
                RUndefined).
Proof.
  apply (createCodeBlock_any_language (fun c => [c])
           (mkProps ∅ (RElement "code" {[ "className" := js "language-typescript" ]}
                         (RString (js "let x = 1"))))
           (js "typescript")).
  - reflexivity.
  - reflexivity.
Defined.

(** X8: A class that does not hold ["language-"] anywhere is taken whole as
    the language. *)
Theorem createCodeBlock_other_class (upperOutsideAscii : N -> list N)
    (props : Props) (className : list N) :
  childClassName props = Some className -> className <> [] ->
  (forall i, startsWith (js "language-") (drop i className) = false) ->
  createCodeBlock upperOutsideAscii props
  = Rendered (mkElement "CodeBlock"
                (<[ "marginTop" := PString (js "8") ]>
                (<[ "marginBottom" := PString (js "16") ]>
                (<[ "codeInstances" :=
                      PCodeInstances
                        [mkCodeInstance (childChildren props) className
                           (toUpperCase upperOutsideAscii (charAt0 className)
                            ++ slice1 className)] ]>
                {[ "copyButton" := PBoolean true ]})))
                RUndefined).
Proof.
  intros Hclass Hne Habsent.
  rewrite (createCodeBlock_class _ _ _ Hclass Hne).
  now rewrite (replaceFirst_absent _ _ _ Habsent).
Qed.

Lemma createCodeBlock_other_class_witness :
  createCodeBlock (fun c => [c])
    (mkProps ∅ (RElement "code" {[ "className" := js "hljs" ]}
                  (RString (js "x"))))
  = Rendered (mkElement "CodeBlock"
                (<[ "marginTop" := PString (js "8") ]>
                (<[ "marginBottom" := PString (js "16") ]>
                (<[ "codeInstances" :=
                      PCodeInstances
                        [mkCodeInstance (RString (js "x")) (js "hljs") (js "Hljs")] ]>
                {[ "copyButton" := PBoolean true ]})))
                RUndefined).
Proof.
  apply (createCodeBlock_other_class (fun c => [c])
           (mkProps ∅ (RElement "code" {[ "className" := js "hljs" ]}
                         (RString (js "x"))))
           (js "hljs")).
  - reflexivity.
  - discriminate.
  - intros i. do 4 (destruct i as [|i]; [reflexivity |]).
    destruct i; reflexivity.
Defined.

(** ** Images with a source *)

Lemma withProp_lookup (name : string) (v : option PropValue)
    (m : gmap string PropValue) (k : string) :
  withProp name v m !! k
  = if decide (name = k) then match v with Some x => Some x | None => m !! k end
    else m !! k.
Proof.
  unfold withProp. destruct v as [x|].
  - rewrite lookup_insert. reflexivity.
  - now destruct (decide (name = k)).
Qed.

(** X9: For every image node with a non-empty source, nothing is logged and
    the image is rendered with the caller's children and the caller's
    props, [src] and [alt] among them, laid over the seven defaults: a
    prop of the caller is never changed, and a default shows exactly
    where the caller passes no prop of that name. *)
Theorem createImage_props (p : Props) (src : list N) :
  attrs p !! "src" = Some (PString src) -> src <> [] ->
  createImage p
  = (Rendered (mkElement "SmartImage" (attrs p ∪ imageDefaults) (children p)),
     []).
Proof.
  intros Hsrc Hne. unfold createImage. rewrite Hsrc. simpl truthy.
  rewrite bool_decide_eq_false_2 by exact Hne. simpl negb. cbv iota.
  do 2 f_equal. f_equal. apply map_eq. intros k.
  rewrite !lookup_union, !withProp_lookup.
  fold imageDefaults.
  destruct (decide ("src" = k)) as [<- | Hk1].
  - rewrite lookup_delete_ne, lookup_delete_eq, Hsrc by discriminate.
    reflexivity.
  - destruct (decide ("alt" = k)) as [<- | Hk2].
    + rewrite lookup_delete_eq.
      destruct (attrs p !! "alt"); reflexivity.
    + now rewrite !lookup_delete_ne by assumption.
Qed.

Lemma createImage_props_witness :
  createImage (mkProps (<[ "src" := PString (js "/images/a.png") ]>
                          {[ "radius" := PString (js "l") ]}) RUndefined)
  = (Rendered (mkElement "SmartImage"
                 ((<[ "src" := PString (js "/images/a.png") ]>
                     {[ "radius" := PString (js "l") ]}) ∪ imageDefaults)
                 RUndefined), []).
Proof.
  assert (Hsrc : attrs (mkProps (<[ "src" := PString (js "/images/a.png") ]>
                                   {[ "radius" := PString (js "l") ]}) RUndefined)
                   !! "src" = Some (PString (js "/images/a.png")))
    by reflexivity.
  assert (Hne : js "/images/a.png" <> []) by discriminate.
  exact (createImage_props _ _ Hsrc Hne).
Defined.

(** ** Links and the caller's props *)

(** X10: An internal link and a same-page anchor carry exactly the props the
    caller passed: the link transformer adds none and changes none. *)
Theorem CustomLink_adds_nothing (p : Props) (href : list N) :
  attrs p !! "href" = Some (PString href) ->
  startsWith (js "/") href = true \/ startsWith (js "#") href = true ->
  CustomLink p
  = Rendered (mkElement (if startsWith (js "/") href then "SmartLink" else "a")
                (attrs p) (children p)).
Proof.
  intros Hhref Hcase. unfold CustomLink. rewrite Hhref.
  rewrite (rest_union_href _ _ Hhref).
  destruct (startsWith (js "/") href); [reflexivity |].
  destruct Hcase as [Hcase | Hcase]; [discriminate |]. now rewrite Hcase.
Qed.

Lemma CustomLink_adds_nothing_witness :
  CustomLink (mkProps (<[ "href" := PString (js "#usage") ]>
                         {[ "title" := PString (js "Usage") ]})
                (RString (js "usage")))
  = Rendered (mkElement "a"
                (<[ "href" := PString (js "#usage") ]>
                   {[ "title" := PString (js "Usage") ]})
                (RString (js "usage"))).
Proof.
  assert (Hhref : attrs (mkProps (<[ "href" := PString (js "#usage") ]>
                                    {[ "title" := PString (js "Usage") ]})
                           (RString (js "usage")))
                    !! "href" = Some (PString (js "#usage")))
    by reflexivity.
  assert (Hcase : startsWith (js "/") (js "#usage") = true
                  \/ startsWith (js "#") (js "#usage") = true)
    by (right; reflexivity).
  exact (CustomLink_adds_nothing _ _ Hhref Hcase).
Defined.

(** X11: Whatever the link, every prop the caller passed reaches the rendered
    element with the value it was passed with. *)
Theorem CustomLink_keeps_caller_props (p : Props) (href : list N)
    (name : string) (v : PropValue) :
  attrs p !! "href" = Some (PString href) ->
  attrs p !! name = Some v ->
  exists e, CustomLink p = Rendered e /\ elProps e !! name = Some v.
Proof.
  intros Hhref Hname. unfold CustomLink. rewrite Hhref.
  assert (Hkeep : forall X : gmap string PropValue,
            X !! "href" = Some (PString href) ->
            (delete "href" (attrs p) ∪ X) !! name = Some v).
  { intros X HX. destruct (decide ("href" = name)) as [<- | Hne].
    - rewrite lookup_rest_union_same. congruence.
    - rewrite lookup_rest_union by exact Hne. now rewrite Hname. }
  destruct (startsWith (js "/") href);
    [| destruct (startsWith (js "#") href)];
    eexists; (split; [reflexivity |]); simpl; apply Hkeep.
  - apply lookup_singleton_eq.
  - apply lookup_singleton_eq.
  - apply lookup_insert_eq.
Qed.

Lemma CustomLink_keeps_caller_props_witness :
  exists e,
    CustomLink (mkProps (<[ "href" := PString (js "https://example.com") ]>
                           {[ "rel" := PString (js "author") ]})
                  (RString (js "me"))) = Rendered e
    /\ elProps e !! "rel" = Some (PString (js "author")).
Proof.
  assert (Hhref : attrs (mkProps (<[ "href" := PString (js "https://example.com") ]>
                                    {[ "rel" := PString (js "author") ]})
                           (RString (js "me")))
                    !! "href" = Some (PString (js "https://example.com")))
    by reflexivity.
  assert (Hrel : attrs (mkProps (<[ "href" := PString (js "https://example.com") ]>
                                   {[ "rel" := PString (js "author") ]})
                          (RString (js "me")))
                   !! "rel" = Some (PString (js "author")))
    by reflexivity.
  exact (CustomLink_keeps_caller_props _ _ _ _ Hhref Hrel).
Defined.

(** ** The merged table and the defaults *)

(** X12: An override map whose entries all hold components replaces
    entries and adds entries; it never removes one: every kind of the
    default table has a component in the merged table.  (An entry that
    holds [undefined] is outside the model.) *)
Theorem CustomMDX_keeps_default_kinds (upperOutsideAscii : N -> list N)
    (props : CustomMDXProps) (k : string) :
  is_Some (components upperOutsideAscii !! k) ->
  is_Some (mdxComponents (CustomMDX upperOutsideAscii props) !! k).
Proof.
  intros [c Hc]. rewrite CustomMDX_lookup, Hc.
  destruct (default ∅ (overrides props) !! k); eauto.
Qed.

Lemma CustomMDX_keeps_default_kinds_witness :
  is_Some (mdxComponents
             (CustomMDX (fun c => [c])
                (mkCustomMDXProps (js "text")
                   (Some {[ "Callout" := libraryComponent "Callout" ]})))
           !! "img").
Proof.
  apply CustomMDX_keeps_default_kinds. exists createImage.
  apply components_img.
Defined.

(** The kinds of the merged table are those of the override map and
    those of the default table, and no other. *)
Theorem CustomMDX_kinds (upperOutsideAscii : N -> list N)
    (props : CustomMDXProps) :
  dom (mdxComponents (CustomMDX upperOutsideAscii props))
  = dom (default ∅ (overrides props)) ∪ dom (components upperOutsideAscii).
Proof. unfold CustomMDX. cbn [mdxComponents]. apply dom_union_L. Qed.

(** ** The sorter on posts that share a date *)

Section SorterFacts.

Variable getTime : list N -> option Z.

Lemma notEarlierThan_trans (a b c : Post) :
  notEarlierThan getTime a b -> notEarlierThan getTime b c ->
  notEarlierThan getTime a c.
Proof.
  unfold notEarlierThan.
  destruct (publishedTime getTime a), (publishedTime getTime b),
           (publishedTime getTime c); try tauto; lia.
Qed.

Lemma SortCompare_dated (x y : Post) (tx ty : Z) :
  publishedTime getTime x = Some tx -> publishedTime getTime y = Some ty ->
  SortCompare (compareProjects getTime) x y = (ty - tx)%Z.
Proof.
  intros Hx Hy. unfold SortCompare, compareProjects. now rewrite Hy, Hx.
Qed.

Lemma insertSorted_weakly (x : Post) (l : list Post) :
  is_Some (publishedTime getTime x) ->
  Forall (fun y => is_Some (publishedTime getTime y)) l ->
  StronglySorted (notEarlierThan getTime) l ->
  StronglySorted (notEarlierThan getTime)
    (insertSorted (compareProjects getTime) x l).
Proof.
  intros [tx Hx] Hdated Hsorted.
  induction Hsorted as [|y l Hsorted IH Hy]; simpl.
  - repeat constructor.
  - inversion Hdated as [|? ? [ty Hty] Hdated']; subst.
    rewrite (SortCompare_dated x y tx ty Hx Hty).
    destruct (Z.ltb_spec 0 (ty - tx)) as [Hlt | Hge].
    + constructor; [now apply IH |].
      rewrite insertSorted_Permutation. constructor; [| exact Hy].
      unfold notEarlierThan. rewrite Hty, Hx. lia.
    + assert (Hxy : notEarlierThan getTime x y)
        by (unfold notEarlierThan; rewrite Hty, Hx; lia).
      constructor; [now constructor |].
      constructor; [exact Hxy |].
      eapply Forall_impl; [exact Hy |].
      intros z Hz. now apply notEarlierThan_trans with y.
Qed.

Lemma sortedProjects_weakly (posts : list Post) :
  Forall (fun p => is_Some (publishedTime getTime p)) posts ->
  StronglySorted (notEarlierThan getTime) (sortedProjects getTime posts).
Proof.
  unfold sortedProjects, sort.
  induction 1 as [|x posts Hx Hdated IH]; simpl; [constructor |].
  apply insertSorted_weakly; [exact Hx | | exact IH].
  fold (sort (compareProjects getTime) posts). now rewrite sort_Permutation.
Qed.

(** A list already in order is left as it is. *)
Lemma sort_in_order (l : list Post) :
  Forall (fun p => is_Some (publishedTime getTime p)) l ->
  StronglySorted (notEarlierThan getTime) l ->
  sort (compareProjects getTime) l = l.
Proof.
  unfold sort. intros Hdated Hsorted.
  induction Hsorted as [|x l Hsorted IH Hx]; [reflexivity |].
  inversion Hdated as [|? ? [tx Htx] Hdated']; subst.
  simpl. rewrite (IH Hdated'). destruct l as [|y l]; [reflexivity |].
  inversion Hdated' as [|? ? [ty Hty] _]; subst.
  inversion Hx as [|? ? Hxy _]; subst.
  simpl. rewrite (SortCompare_dated x y tx ty Htx Hty).
  unfold notEarlierThan in Hxy. rewrite Htx, Hty in Hxy.
  destruct (Z.ltb_spec 0 (ty - tx)); [lia | reflexivity].
Qed.

Lemma insertSorted_same_time (t : option Z) (x : Post) (l : list Post) :
  List.filter (fun p => bool_decide (publishedTime getTime p = t))
    (insertSorted (compareProjects getTime) x l)
  = List.filter (fun p => bool_decide (publishedTime getTime p = t)) (x :: l).
Proof.
  induction l as [|y l IH]; [reflexivity |].
  simpl insertSorted.
  destruct (Z.ltb_spec 0 (SortCompare (compareProjects getTime) x y))
    as [Hlt | Hge]; [| reflexivity].
  assert (Hdiff : publishedTime getTime x <> publishedTime getTime y).
  { unfold SortCompare, compareProjects in Hlt. intros Heq. rewrite Heq in Hlt.
    destruct (publishedTime getTime y); simpl in Hlt; lia. }
  simpl List.filter at 1. rewrite IH. simpl.
  repeat case_bool_decide; congruence.
Qed.

End SorterFacts.

(** X13: Posts whose dates are all readable, equal or not: the sorter returns
    a permutation in which no post is earlier than a post after it. *)
Theorem sortedProjects_with_ties (getTime : list N -> option Z)
    (posts : list Post) :
  Forall (fun p => is_Some (publishedTime getTime p)) posts ->
  Permutation (sortedProjects getTime posts) posts
  /\ StronglySorted (notEarlierThan getTime) (sortedProjects getTime posts).
Proof.
  intros Hdated. split; [apply sort_Permutation |].
  now apply sortedProjects_weakly.
Qed.

Lemma sortedProjects_with_ties_witness :
  Permutation
    (sortedProjects exampleTime
       (examplePost "twin" "2025-01-01" :: exampleProjects))
    (examplePost "twin" "2025-01-01" :: exampleProjects)
  /\ StronglySorted (notEarlierThan exampleTime)
       (sortedProjects exampleTime
          (examplePost "twin" "2025-01-01" :: exampleProjects)).
Proof.
  apply sortedProjects_with_ties.
  repeat constructor; eexists; reflexivity.
Defined.

(** X14: Posts with the same date keep the order the loader gave them: for
    every time value, the posts of that time come in the same order
    before and after sorting. *)
Theorem sortedProjects_stable (getTime : list N -> option Z)
    (posts : list Post) (t : option Z) :
  Forall (fun p => is_Some (publishedTime getTime p)) posts ->
  List.filter (fun p => bool_decide (publishedTime getTime p = t))
    (sortedProjects getTime posts)
  = List.filter (fun p => bool_decide (publishedTime getTime p = t)) posts.
Proof.
  intros _. unfold sortedProjects, sort.
  induction posts as [|x posts IH]; [reflexivity |].
  simpl foldr. rewrite insertSorted_same_time. simpl. now rewrite IH.
Qed.

Lemma sortedProjects_stable_witness :
  List.filter
    (fun p => bool_decide (publishedTime exampleTime p = Some 1735689600000%Z))
    (sortedProjects exampleTime
       (examplePost "twin" "2025-01-01" :: exampleProjects))
  = [ examplePost "twin" "2025-01-01";
      examplePost "sorting-visualizer" "2025-01-01" ].
Proof.
  rewrite sortedProjects_stable by (repeat constructor; eexists; reflexivity).
  reflexivity.
Defined.

(** X15: Sorting twice is sorting once, when all dates are readable. *)
Theorem sortedProjects_idempotent (getTime : list N -> option Z)
    (posts : list Post) :
  Forall (fun p => is_Some (publishedTime getTime p)) posts ->
  sortedProjects getTime (sortedProjects getTime posts)
  = sortedProjects getTime posts.
Proof.
  intros Hdated. unfold sortedProjects at 1. apply sort_in_order.
  - unfold sortedProjects. now rewrite sort_Permutation.
  - now apply sortedProjects_weakly.
Qed.

Lemma sortedProjects_idempotent_witness :
  sortedProjects exampleTime (sortedProjects exampleTime exampleProjects)
  = sortedProjects exampleTime exampleProjects.
Proof.
  apply sortedProjects_idempotent.
  repeat constructor; eexists; reflexivity.
Defined.

(** ** The displayed projects *)

Lemma sliceArray_from_to {A : Type} (first last : Z) (l : list A) :
  (0 <= first)%Z -> (0 <= last)%Z ->
  sliceArray first last l
  = take (Z.to_nat (last - first)) (drop (Z.to_nat first) l).
Proof.
  intros Hfirst Hlast. unfold sliceArray.
  destruct (Z.ltb_spec first 0) as [? | _]; [lia |].
  destruct (Z.ltb_spec last 0) as [? | _]; [lia |].
  destruct (Z.le_gt_cases (Z.of_nat (length l)) first) as [Hout | Hin].
  - rewrite (Z.min_r first) by lia.
    rewrite (drop_ge l (Z.to_nat first)) by lia.
    rewrite Nat2Z.id, drop_all. now rewrite !take_nil.
  - rewrite (Z.min_l first) by lia.
    destruct (Z.le_gt_cases last (Z.of_nat (length l))) as [Hle | Hgt].
    + now rewrite (Z.min_l last) by lia.
    + rewrite (Z.min_r last) by lia.
      rewrite !take_ge; [reflexivity | |]; rewrite length_drop; lia.
Qed.

Lemma sliceArray_sublist {A : Type} (first last : Z) (l : list A) :
  sliceArray first last l `sublist_of` l.
Proof.
  unfold sliceArray. etransitivity; [apply sublist_take | apply sublist_drop].
Qed.

Lemma StronglySorted_sublist {A : Type} (R : A -> A -> Prop) (l1 l2 : list A) :
  l1 `sublist_of` l2 -> StronglySorted R l2 -> StronglySorted R l1.
Proof.
  induction 1 as [|x l1 l2 Hsub IH | x l1 l2 Hsub IH]; intros Hsorted.
  - constructor.
  - apply StronglySorted_inv in Hsorted. destruct Hsorted as [Hrest Hx].
    constructor; [now apply IH |].
    apply Forall_forall. intros y Hy.
    eapply Forall_forall; [exact Hx |]. now apply (elem_of_sublist l1 l2).
  - apply StronglySorted_inv in Hsorted. now apply IH.
Qed.

(** X16: With a range from [a] to [b], [1 <= a <= b], the displayed projects
    are the sorted projects at the positions [a] to [b], counted from
    one and both included; beyond the last project nothing is added. *)
Theorem displayedProjects_positions (getTime : list N -> option Z)
    (a b : Z) (posts : list Post) :
  (1 <= a)%Z -> (a <= b)%Z ->
  displayedProjects getTime (Some (a, Some b)) posts
  = take (Z.to_nat (b - a + 1))
      (drop (Z.to_nat (a - 1)) (sortedProjects getTime posts)).
Proof.
  intros Ha Hb. unfold displayedProjects. simpl.
  rewrite sliceArray_from_to by lia. do 2 f_equal. lia.
Qed.

Lemma displayedProjects_positions_witness :
  displayedProjects exampleTime (Some (2, Some 3)%Z) exampleProjects
  = [ examplePost "sorting-visualizer" "2025-01-01";
      examplePost "omninum" "2024-02-08" ].
Proof.
  rewrite displayedProjects_positions by lia. reflexivity.
Defined.

(** X17: With a range that has a first number [a >= 1] only, the displayed
    projects are the sorted projects from position [a] on; without a
    range they are all the sorted projects. *)
Theorem displayedProjects_from (getTime : list N -> option Z)
    (a : Z) (posts : list Post) :
  (1 <= a)%Z ->
  displayedProjects getTime (Some (a, None)) posts
  = drop (Z.to_nat (a - 1)) (sortedProjects getTime posts)
  /\ displayedProjects getTime None posts = sortedProjects getTime posts.
Proof.
  intros Ha. split; [| reflexivity].
  unfold displayedProjects. simpl.
  rewrite sliceArray_from_to by lia.
  apply take_ge. rewrite length_drop. lia.
Qed.

Lemma displayedProjects_from_witness :
  displayedProjects exampleTime (Some (2, None)%Z) exampleProjects
  = [ examplePost "sorting-visualizer" "2025-01-01";
      examplePost "omninum" "2024-02-08" ].
Proof.
  rewrite (proj1 (displayedProjects_from exampleTime 2 exampleProjects
                    ltac:(lia))).
  reflexivity.
Defined.

Lemma sliceArray_last_one {A : Type} (last : Z) (l : list A) :
  (Z.of_nat (length l) <= last)%Z ->
  sliceArray (-1) last l = drop (length l - 1) l.
Proof.
  intros Hlast. unfold sliceArray. change (-1 <? 0)%Z with true. cbv iota.
  destruct (Z.ltb_spec last 0); [lia |].
  replace (Z.to_nat (Z.max (Z.of_nat (length l) + -1) 0))
    with (length l - 1)%nat by lia.
  apply take_ge. rewrite length_drop. lia.
Qed.

Lemma sliceArray_last_none {A : Type} (last : Z) (l : list A) :
  (0 <= last < Z.of_nat (length l))%Z -> sliceArray (-1) last l = [].
Proof.
  intros Hlast. unfold sliceArray. change (-1 <? 0)%Z with true. cbv iota.
  destruct (Z.ltb_spec last 0); [lia |].
  replace (Z.to_nat (Z.min last (Z.of_nat (length l))
                     - Z.max (Z.of_nat (length l) + -1) 0)) with 0%nat by lia.
  reflexivity.
Qed.

(** X18: A range that starts at zero does not start at the first project:
    the first index is then [-1], which [slice] counts from the end.
    With no second number, or one that is at least the number of
    projects, only the last sorted project is displayed; with a second
    number below the number of projects nothing is displayed. *)
Theorem displayedProjects_from_zero (getTime : list N -> option Z)
    (posts : list Post) :
  let sorted := sortedProjects getTime posts in
  displayedProjects getTime (Some (0%Z, None)) posts
  = drop (length sorted - 1) sorted
  /\ (forall b, (Z.of_nat (length sorted) <= b)%Z ->
        displayedProjects getTime (Some (0%Z, Some b)) posts
        = drop (length sorted - 1) sorted)
  /\ (forall b, (0 <= b < Z.of_nat (length sorted))%Z ->
        displayedProjects getTime (Some (0%Z, Some b)) posts = []).
Proof.
  intros sorted. unfold displayedProjects. fold sorted.
  change (0 - 1)%Z with (-1)%Z. cbn [default].
  split; [| split].
  - apply sliceArray_last_one. lia.
  - intros b Hb. now apply sliceArray_last_one.
  - intros b Hb. now apply sliceArray_last_none.
Qed.

Lemma displayedProjects_from_zero_witness :
  displayedProjects exampleTime (Some (0%Z, None)) exampleProjects
  = [ examplePost "omninum" "2024-02-08" ]
  /\ displayedProjects exampleTime (Some (0%Z, Some 2%Z)) exampleProjects = [].
Proof.
  destruct (displayedProjects_from_zero exampleTime exampleProjects)
    as (Hlast & _ & Hnone).
  split.
  - rewrite Hlast. reflexivity.
  - apply Hnone. vm_compute. split; [discriminate | reflexivity].
Defined.

(** X19: Whatever the range and whatever the dates, the displayed
    projects are a sublist of the sorted projects and each of them is
    one of the loaded posts; when the dates are readable and pairwise
    distinct they come in strictly descending order of date. *)
Theorem displayedProjects_descending (getTime : list N -> option Z)
    (range : option (Z * option Z)) (posts : list Post) :
  displayedProjects getTime range posts `sublist_of` sortedProjects getTime posts
  /\ (forall p, p ∈ displayedProjects getTime range posts -> p ∈ posts)
  /\ (Forall (fun p => is_Some (publishedTime getTime p)) posts ->
      NoDup (map (publishedTime getTime) posts) ->
      StronglySorted (laterThan getTime)
        (displayedProjects getTime range posts)).
Proof.
  assert (Hsub : displayedProjects getTime range posts
                 `sublist_of` sortedProjects getTime posts).
  { unfold displayedProjects. destruct range as [[r0 r1] |]; [| reflexivity].
    apply sliceArray_sublist. }
  split; [exact Hsub |]. split.
  - intros p Hp. apply (elem_of_sublist _ _ _ Hp) in Hsub.
    unfold sortedProjects in Hsub. now rewrite sort_Permutation in Hsub.
  - intros Hdated Hdistinct.
    eapply StronglySorted_sublist; [exact Hsub |].
    now apply sortedProjects_sorted.
Qed.

Lemma displayedProjects_descending_witness :
  StronglySorted (laterThan exampleTime)
    (displayedProjects exampleTime (Some (1, Some 2)%Z) exampleProjects).
Proof.
  apply (proj2 (proj2 (displayedProjects_descending exampleTime
                         (Some (1, Some 2)%Z) exampleProjects))).
  - repeat constructor; eexists; reflexivity.
  - apply (bool_decide_unpack _). vm_compute. exact I.
Defined.

(** ** The glitch effect *)

Lemma runGlitch_snoc (props : GlitchFxProps) (events : list GlitchEvent)
    (ev : GlitchEvent) :
  runGlitch props (events ++ [ev])
  = handleGlitch props (runGlitch props events) ev.
Proof. unfold runGlitch. now rewrite fold_left_app. Qed.

(** While the trigger is not [custom], no timeout is ever pending. *)
Lemma runGlitch_no_timeout (props : GlitchFxProps) (events : list GlitchEvent) :
  trigger props <> custom -> pendingTimeouts (runGlitch props events) = 0%nat.
Proof.
  intros Htrigger. induction events as [|ev events IH] using rev_ind.
  - unfold runGlitch, mountEffect, initialGlitch. simpl.
    now destruct (continuous props || isInstant (trigger props)).
  - rewrite runGlitch_snoc. destruct ev; simpl.
    + now destruct (restOnMouseEnter props), (trigger props).
    + now destruct (restOnMouseLeave props), (trigger props).
    + now destruct (trigger props).
    + now rewrite IH.
Qed.

(** X20: With the trigger [instant], the effect is on after mounting and
    stays on: no mouse event, interval or timeout turns it off. *)
Theorem GlitchFx_instant_always_on (props : GlitchFxProps)
    (events : list GlitchEvent) :
  trigger props = instant -> isGlitching (runGlitch props events) = true.
Proof.
  intros Htrigger. induction events as [|ev events IH] using rev_ind.
  - unfold runGlitch, mountEffect, initialGlitch. simpl. rewrite Htrigger.
    simpl. now rewrite orb_true_r.
  - rewrite runGlitch_snoc.
    assert (Hpending : pendingTimeouts (runGlitch props events) = 0%nat)
      by (apply runGlitch_no_timeout; rewrite Htrigger; discriminate).
    destruct ev; simpl; rewrite ?Htrigger, ?Hpending;
      try destruct (restOnMouseEnter props);
      try destruct (restOnMouseLeave props); exact IH.
Qed.

Lemma GlitchFx_instant_always_on_witness :
  isGlitching (runGlitch (mkGlitchFxProps instant false false false)
                 [MouseEnter; MouseLeave; IntervalFires; TimeoutFires]) = true.
Proof. apply GlitchFx_instant_always_on. reflexivity. Defined.

(** X21: With the trigger [hover], the effect follows the mouse where
    the component's own handlers are in place: when the remaining props
    hold no [onMouseEnter], the effect is on after a mouse enter; when
    they hold no [onMouseLeave], it is off after a mouse leave, whatever
    [continuous] says.  A handler passed by the caller stands in place
    of the component's, and the mouse event then leaves the effect as it
    was.  As long as no mouse event has happened the effect is
    [continuous]. *)
Theorem GlitchFx_hover_follows_mouse (props : GlitchFxProps)
    (events : list GlitchEvent) :
  trigger props = hover ->
  (restOnMouseEnter props = false ->
   isGlitching (runGlitch props (events ++ [MouseEnter])) = true)
  /\ (restOnMouseLeave props = false ->
      isGlitching (runGlitch props (events ++ [MouseLeave])) = false)
  /\ (restOnMouseEnter props = true ->
      runGlitch props (events ++ [MouseEnter]) = runGlitch props events)
  /\ (restOnMouseLeave props = true ->
      runGlitch props (events ++ [MouseLeave]) = runGlitch props events)
  /\ (Forall (fun ev => ev <> MouseEnter /\ ev <> MouseLeave) events ->
      isGlitching (runGlitch props events) = continuous props).
Proof.
  intros Htrigger. rewrite !runGlitch_snoc. simpl. rewrite Htrigger.
  split; [now intros -> |]. split; [now intros -> |].
  split; [now intros -> |]. split; [now intros -> |].
  intros Hquiet. induction events as [|ev events IH] using rev_ind.
  - unfold runGlitch, mountEffect, initialGlitch. simpl. rewrite Htrigger.
    simpl. rewrite orb_false_r. now destruct (continuous props).
  - apply Forall_app in Hquiet. destruct Hquiet as [Hquiet Hev].
    inversion Hev as [|? ? [Henter Hleave] _]; subst.
    rewrite runGlitch_snoc.
    assert (Hpending : pendingTimeouts (runGlitch props events) = 0%nat)
      by (apply runGlitch_no_timeout; rewrite Htrigger; discriminate).
    destruct ev; try congruence; simpl; rewrite ?Htrigger, ?Hpending;
      now apply IH.
Qed.

Lemma GlitchFx_hover_follows_mouse_witness :
  isGlitching (runGlitch (mkGlitchFxProps hover true false false)
                 [MouseEnter; MouseLeave]) = false
  /\ isGlitching (runGlitch (mkGlitchFxProps hover false true false)
                    [MouseEnter]) = false.
Proof.
  split.
  - exact (proj1 (proj2 (GlitchFx_hover_follows_mouse
                           (mkGlitchFxProps hover true false false)
                           [MouseEnter] eq_refl)) eq_refl).
  - pose proof (proj1 (proj2 (proj2 (GlitchFx_hover_follows_mouse
                                        (mkGlitchFxProps hover false true false)
                                        [] eq_refl))) eq_refl) as Hsame.
    simpl app in Hsame. rewrite Hsame. reflexivity.
Defined.

(** X22: With the trigger [custom] and [continuous] off, the effect is on
    only between a firing of the interval and a timeout: whenever no
    timeout is pending, the effect is off. *)
Theorem GlitchFx_custom_ends (props : GlitchFxProps)
    (events : list GlitchEvent) :
  trigger props = custom -> continuous props = false ->
  pendingTimeouts (runGlitch props events) = 0%nat ->
  isGlitching (runGlitch props events) = false.
Proof.
  intros Htrigger Hcontinuous.
  induction events as [|ev events IH] using rev_ind.
  - intros _. unfold runGlitch, mountEffect, initialGlitch. simpl.
    now rewrite Htrigger, Hcontinuous.
  - rewrite runGlitch_snoc. destruct ev; simpl; rewrite ?Htrigger.
    + now destruct (restOnMouseEnter props).
    + now destruct (restOnMouseLeave props).
    + discriminate.
    + destruct (pendingTimeouts (runGlitch props events)) eqn:Hpending;
        [intros _; now apply IH | intros _; reflexivity].
Qed.

Lemma GlitchFx_custom_ends_witness :
  isGlitching (runGlitch (mkGlitchFxProps custom false false false)
                 [IntervalFires; MouseEnter; TimeoutFires]) = false.
Proof. apply GlitchFx_custom_ends; reflexivity. Defined.
